(** * Bitsets of the combinatorial polyhedron: limb masks, membership,
      insertion, removal and the forward scan.

    Shallow embedding of
    [src/sage/geometry/polyhedron/combinatorial_polyhedron/bitsets.cc].

    Machine integers are mathematical integers with the wrap-around of
    their C++ type written out; the caller-owned buffer [uint64_t* bits]
    is a list of limbs inside a memory that also logs every access, and
    the functions that touch it live in a small state monad whose failure
    outcome stands for undefined behaviour. *)

From Stdlib Require Import ZArith Lia List Bool Sorted.
From stdpp Require Import base list.

Local Open Scope Z_scope.

(** ** Machine integers *)

Module Machine.

(** [uint64_t], [size_t], [mp_limb_t], [mp_bitcnt_t]: values modulo 2^64. *)
Definition u64 (z : Z) : Z := z mod 2 ^ 64.

(** [long]: conversion to the signed 64-bit range. *)
Definition s64 (z : Z) : Z := (z + 2 ^ 63) mod 2 ^ 64 - 2 ^ 63.

(** [int]: conversion to the signed 32-bit range. *)
Definition s32 (z : Z) : Z := (z + 2 ^ 31) mod 2 ^ 32 - 2 ^ 31.

(** [~x] on a 64-bit unsigned operand. *)
Definition lnot64 (x : Z) : Z := u64 (Z.lnot x).

(** [!x]: logical negation, a [bool] that is 1 exactly when [x] is zero. *)
Definition lognot (x : Z) : Z := if x =? 0 then 1 else 0.

(** The range of a [uint64_t] / [size_t] value. *)
Definition is_u64 (z : Z) : Prop := 0 <= z < 2 ^ 64.

End Machine.
Import Machine.

Definition index_shift : Z := 6.
Definition LIMB_BITS : Z := 64.

(** [(size_t) -1], the value every search returns for "not found". *)
Definition SENTINEL : Z := u64 (-1).

(** ** Creating limb patterns *)

(** [(uint64_t) 1 << (n % LIMB_BITS)] *)
Definition limb_one_set_bit (n : Z) : Z :=
  u64 (Z.shiftl (u64 1) (n mod LIMB_BITS)).

(** [!((uint64_t) 1 << (n % LIMB_BITS))]: the operator in the source is the
    logical [!], whose [bool] result is widened to [uint64_t]. *)
Definition limb_one_zero_bit (n : Z) : Z :=
  u64 (lognot (u64 (Z.shiftl (u64 1) (n mod LIMB_BITS)))).

(** [((uint64_t) 1 << (n % LIMB_BITS)) - 1] *)
Definition limb_lower_bits_down (n : Z) : Z :=
  u64 (u64 (Z.shiftl (u64 1) (n mod LIMB_BITS)) - 1).

(** ** The buffer and the monad of buffer accesses *)

Inductive access : Type :=
| Rd (i : Z)
| Wr (i : Z).

Record mem : Type := mkMem {
  limbs : list Z;        (* the words behind the pointer [bits] *)
  trace : list access    (* every access made so far, oldest first *)
}.

Inductive outcome (A : Type) : Type :=
| Done (a : A) (s : mem)   (* normal return *)
| Undefined                  (* undefined behaviour *)
| OutOfFuel.                   (* the loop budget of the model ran out *)
Arguments Done {A} a s.
Arguments Undefined {A}.
Arguments OutOfFuel {A}.

Definition M (A : Type) : Type := mem -> outcome A.

Definition ret {A} (a : A) : M A := fun s => Done a s.

Definition bind {A B} (m : M A) (k : A -> M B) : M B :=
  fun s => match m s with
           | Done a s' => k a s'
           | Undefined => Undefined
           | OutOfFuel => OutOfFuel
           end.

Notation "x <- m ;; k" := (bind m (fun x => k))
  (at level 100, m at level 99, right associativity).

(** A partial pure computation; [None] is undefined behaviour. *)
Definition lift {A} (o : option A) : M A :=
  fun s => match o with Some a => Done a s | None => Undefined end.

(** [bits[i]] as an rvalue; reading outside the buffer is undefined. *)
Definition load (i : Z) : M Z :=
  fun s => if i <? 0 then Undefined else
           match limbs s !! Z.to_nat i with
           | Some w => Done w (mkMem (limbs s) (trace s ++ [Rd i]))
           | None => Undefined
           end.

(** [bits[i] = v]; writing outside the buffer is undefined. *)
Definition store (i v : Z) : M unit :=
  fun s => if i <? 0 then Undefined else
           match limbs s !! Z.to_nat i with
           | Some _ => Done tt (mkMem (<[Z.to_nat i := v]> (limbs s))
                                        (trace s ++ [Wr i]))
           | None => Undefined
           end.

(** ** Bitset bit manipulation *)

(** [return bits[n >> index_shift] & limb_one_set_bit(n);] with return
    type [int]: the 64-bit conjunction is converted to [int]. *)
Definition bitset_in (n : Z) : M Z :=
  w <- load (Z.shiftr n index_shift) ;;
  ret (s32 (Z.land w (limb_one_set_bit n))).

(** [bits[n >> index_shift] &= limb_one_zero_bit(n);] *)
Definition bitset_discard (n : Z) : M unit :=
  w <- load (Z.shiftr n index_shift) ;;
  store (Z.shiftr n index_shift) (Z.land w (limb_one_zero_bit n)).

(** [bits[n >> index_shift] |= limb_one_set_bit(n);] *)
Definition bitset_add (n : Z) : M unit :=
  w <- load (Z.shiftr n index_shift) ;;
  store (Z.shiftr n index_shift) (Z.lor w (limb_one_set_bit n)).

(** ** Bitset searching *)

Fixpoint scan1_from (fuel : nat) (limb : Z) (b : Z) : option Z :=
  match fuel with
  | O => None
  | S fuel' => if Z.testbit limb b then Some b
               else scan1_from fuel' limb (b + 1)
  end.

(** Modelled from the spec: [mpn_scan1] is GMP's bit scan, declared in
    [gmp.h], which is not part of the repository.  Called on the address
    of one limb, it returns the position of the least significant set bit
    at or above [start]; when the limb has no such bit the scan leaves the
    limb, which is undefined ([None]). *)
Definition mpn_scan1 (limb : Z) (start : Z) : option Z :=
  scan1_from (Z.to_nat (LIMB_BITS - start)) limb start.

(** Result type [size_t]: [-1] becomes [SENTINEL]. *)
Definition _bitset_first_in_limb (limb : Z) : option Z :=
  if limb =? 0 then Some (u64 (-1))
  else option_map u64 (mpn_scan1 limb 0).

(** Result type [long]. *)
Definition _bitset_first_in_limb_nonzero (limb : Z) : option Z :=
  option_map s64 (mpn_scan1 limb 0).

(** The loop [for(i++; i < face_length; i++)] of [bitset_next], entered with
    [i] already incremented. *)
Fixpoint bitset_next_loop (fuel : nat) (face_length : Z) (i : Z) : M Z :=
  match fuel with
  | O => fun _ => OutOfFuel
  | S fuel' =>
      if i <? face_length then
        w <- load i ;;
        if negb (w =? 0) then
          w' <- load i ;;
          r <- lift (_bitset_first_in_limb_nonzero w') ;;
          ret (Z.lor (u64 (Z.shiftl i index_shift)) (u64 r))
        else bitset_next_loop fuel' face_length (u64 (i + 1))
      else ret (u64 (-1))
  end.

Definition bitset_next (face_length : Z) (n : Z) : M Z :=
  if u64 (face_length * LIMB_BITS) <=? n then ret (u64 (-1))
  else
    let i := Z.shiftr n index_shift in
    w <- load i ;;
    let limb := Z.land w (lnot64 (limb_lower_bits_down n)) in
    r <- lift (_bitset_first_in_limb limb) ;;
    if negb (r =? u64 (-1)) then
      ret (Z.lor (u64 (Z.shiftl i index_shift)) r)
    else
      bitset_next_loop (S (Z.to_nat face_length)) face_length (u64 (i + 1)).

(** ** What the bits of a buffer mean *)

(** Bit [i] of the buffer: bit [i mod 64] of word [i / 64]. *)
Definition bit_set (bits : list Z) (i : Z) : bool :=
  if i <? 0 then false else
  match bits !! Z.to_nat (i / LIMB_BITS) with
  | Some w => Z.testbit w (i mod LIMB_BITS)
  | None => false
  end.

(** A buffer of [face_length] limbs whose capacity is a [size_t]. *)
Record bitset_ok (face_length : Z) (bits : list Z) : Prop := {
  ok_length : Z.of_nat (length bits) = face_length;
  ok_limbs : Forall is_u64 bits;
  ok_capacity : face_length * LIMB_BITS < 2 ^ 64
}.

(** An index inside the buffer. *)
Definition valid_index (bits : list Z) (n : Z) : Prop :=
  0 <= n < Z.of_nat (length bits) * LIMB_BITS.

(** A computation that reads the buffer at most: on return the words are
    the ones it started with and everything it logged is a read. *)
Definition is_read (a : access) : bool :=
  match a with Rd _ => true | Wr _ => false end.

Definition unchanged {A} (s : mem) (o : outcome A) : Prop :=
  match o with
  | Done _ s' =>
      limbs s' = limbs s /\
      exists t, trace s' = trace s ++ t /\ forallb is_read t = true
  | Undefined => True
  | OutOfFuel => True
  end.

Definition read_only {A} (m : M A) : Prop := forall s, unchanged s (m s).

(** A piece of the access log made of reads of words [lo <= j < hi] only. *)
Definition reads_between (lo hi : Z) (t : list access) : Prop :=
  Forall (fun a => match a with Rd j => lo <= j < hi | Wr _ => False end) t.

(** What a search of the index range [lo, hi) must return: the sentinel when
    no bit of the range is set, and otherwise the least set index of it. *)
Definition next_result (bits : list Z) (lo hi r : Z) : Prop :=
  (r = SENTINEL /\ forall k, lo <= k < hi -> bit_set bits k = false) \/
  (lo <= r < hi /\ bit_set bits r = true /\
   forall k, lo <= k < r -> bit_set bits k = false).

(** Iteration as callers write it: start at [n], and after each hit resume
    at [result + 1], until the sentinel comes back. *)
Fixpoint iterate_next (fuel : nat) (face_length n : Z) (s : mem)
  : option (list Z) :=
  match fuel with
  | O => None
  | S fuel' =>
      match bitset_next face_length n s with
      | Done r s' =>
          if r =? SENTINEL then Some []
          else option_map (cons r)
                 (iterate_next fuel' face_length (u64 (r + 1)) s')
      | _ => None
      end
  end.

(** The buffer of the worked scenario: bits 3, 70 and 127 of 128. *)
Definition scenario : mem :=
  match (_ <- bitset_add 3 ;; _ <- bitset_add 70 ;; bitset_add 127)
          (mkMem [0; 0] []) with
  | Done _ s => mkMem (limbs s) []
  | _ => mkMem [] []
  end.


(** * Properties *)

(** ** The code on small inputs *)

Example scenario_limbs : limbs scenario = [8; 2 ^ 6 + 2 ^ 63].
Proof. vm_compute. reflexivity. Qed.

Example scenario_iterate :
  iterate_next 4 2 0 scenario = Some [3; 70; 127].
Proof. vm_compute. reflexivity. Qed.

Example patterns_at_70 :
  limb_one_set_bit 70 = 64 /\ limb_lower_bits_down 70 = 63 /\
  limb_one_zero_bit 70 = 0.
Proof. repeat split. Qed.

(** One bit, at index 64: found from 0 and from 64 itself. *)
Example word_boundary :
  bitset_next 3 0 (mkMem [0; 1; 0] []) =
    Done 64 (mkMem [0; 1; 0] [Rd 0; Rd 1; Rd 1]) /\
  bitset_next 3 64 (mkMem [0; 1; 0] []) =
    Done 64 (mkMem [0; 1; 0] [Rd 1]).
Proof. split; vm_compute; reflexivity. Qed.

Example empty_set :
  bitset_next 2 0 (mkMem [0; 0] []) =
    Done SENTINEL (mkMem [0; 0] [Rd 0; Rd 1]).
Proof. vm_compute. reflexivity. Qed.

(** Outside the buffer the accesses are undefined. *)
Example out_of_buffer :
  bitset_add 64 (mkMem [0] []) = Undefined /\
  bitset_in 64 (mkMem [0] []) = Undefined /\
  mpn_scan1 0 0 = None.
Proof. repeat split. Qed.

(** ** Machine arithmetic *)

Section MachineFacts.

Lemma u64_small z : is_u64 z -> u64 z = z.
Proof. unfold is_u64, u64. intros H. apply Z.mod_small. exact H. Qed.

Lemma u64_range z : is_u64 (u64 z).
Proof. unfold is_u64, u64. apply Z.mod_pos_bound. lia. Qed.

Lemma s64_small z : - 2 ^ 63 <= z < 2 ^ 63 -> s64 z = z.
Proof. unfold s64. intros H. rewrite Z.mod_small; lia. Qed.

Lemma SENTINEL_eq : SENTINEL = 2 ^ 64 - 1.
Proof. reflexivity. Qed.

Lemma offset_range n : 0 <= n mod LIMB_BITS < 64.
Proof. unfold LIMB_BITS. apply Z.mod_pos_bound. lia. Qed.

Lemma pow2_offset_range k : 0 <= k < 64 -> 0 < 2 ^ k < 2 ^ 64.
Proof.
  intros Hk. split.
  - apply Z.pow_pos_nonneg; lia.
  - apply Z.pow_lt_mono_r; lia.
Qed.

Lemma is_u64_high_bits w j : is_u64 w -> 64 <= j -> Z.testbit w j = false.
Proof.
  intros Hw Hj. rewrite <- (u64_small w Hw). unfold u64.
  apply Z.mod_pow2_bits_high. lia.
Qed.

Lemma is_u64_nonzero_bit w :
  is_u64 w -> w <> 0 -> exists j, 0 <= j < 64 /\ Z.testbit w j = true.
Proof.
  intros Hw Hnz.
  destruct (Z.eq_dec (Z.land w (Z.ones 64)) 0) as [Hz | Hz].
  - exfalso. apply Hnz. rewrite Z.land_ones in Hz by lia.
    rewrite <- (u64_small w Hw). exact Hz.
  - assert (Hbit : exists j, Z.testbit (Z.land w (Z.ones 64)) j = true).
    { destruct (Z.land w (Z.ones 64)) as [| p | p] eqn:E.
      - congruence.
      - exists (Z.log2 (Z.pos p)). apply Z.bit_log2. lia.
      - exfalso. rewrite Z.land_ones in E by lia.
        pose proof (Z.mod_pos_bound w (2 ^ 64)). lia. }
    destruct Hbit as [j Hj]. rewrite Z.land_spec in Hj.
    apply andb_true_iff in Hj. destruct Hj as [Hwj Hoj].
    exists j. split; [| exact Hwj].
    destruct (Z.ltb_spec j 0) as [Hneg | Hpos].
    + rewrite Z.testbit_neg_r in Hwj by lia. discriminate.
    + apply Z.ones_spec_iff in Hoj; lia.
Qed.

End MachineFacts.

(** ** The three limb patterns *)

Section Patterns.

Lemma limb_one_set_bit_pow2 n : limb_one_set_bit n = 2 ^ (n mod LIMB_BITS).
Proof.
  unfold limb_one_set_bit. pose proof (offset_range n) as Hk.
  change (u64 1) with 1. rewrite Z.shiftl_1_l.
  apply u64_small. pose proof (pow2_offset_range _ Hk). unfold is_u64. lia.
Qed.

Lemma limb_one_set_bit_pos n : 0 < limb_one_set_bit n < 2 ^ 64.
Proof.
  rewrite limb_one_set_bit_pow2. apply pow2_offset_range, offset_range.
Qed.

Lemma limb_one_set_bit_testbit n j :
  Z.testbit (limb_one_set_bit n) j = (n mod LIMB_BITS =? j).
Proof.
  rewrite limb_one_set_bit_pow2. apply Z.pow2_bits_eqb.
  pose proof (offset_range n). lia.
Qed.

(** The pattern built with [!] is the zero limb for every index. *)
Lemma limb_one_zero_bit_zero n : limb_one_zero_bit n = 0.
Proof.
  unfold limb_one_zero_bit. fold (limb_one_set_bit n).
  pose proof (limb_one_set_bit_pos n) as Hp. unfold lognot.
  destruct (Z.eqb_spec (limb_one_set_bit n) 0) as [E | _]; [lia |].
  reflexivity.
Qed.

Lemma limb_lower_bits_down_ones n :
  limb_lower_bits_down n = Z.ones (n mod LIMB_BITS).
Proof.
  unfold limb_lower_bits_down. fold (limb_one_set_bit n).
  rewrite limb_one_set_bit_pow2. pose proof (offset_range n) as Hk.
  pose proof (pow2_offset_range _ Hk). rewrite Z.ones_equiv.
  unfold Z.pred. apply u64_small. unfold is_u64. lia.
Qed.

(** Masking with [~limb_lower_bits_down(n)] keeps the bits of the limb at
    and above offset [n mod 64] and nothing else. *)
Lemma masked_limb_testbit w n j :
  is_u64 w -> 0 <= j ->
  Z.testbit (Z.land w (lnot64 (limb_lower_bits_down n))) j
  = Z.testbit w j && (n mod LIMB_BITS <=? j).
Proof.
  intros Hw Hj. pose proof (offset_range n) as Hk.
  rewrite Z.land_spec, limb_lower_bits_down_ones. unfold lnot64, u64.
  destruct (Z.ltb_spec j 64) as [Hlo | Hhi].
  - rewrite Z.mod_pow2_bits_low by lia.
    rewrite Z.lnot_spec by lia.
    rewrite Z.testbit_ones_nonneg by lia.
    f_equal. destruct (Z.ltb_spec j (n mod LIMB_BITS));
      destruct (Z.leb_spec (n mod LIMB_BITS) j); simpl; lia || reflexivity.
  - rewrite (is_u64_high_bits w j Hw Hhi). reflexivity.
Qed.

Lemma masked_limb_range w n :
  is_u64 w -> is_u64 (Z.land w (lnot64 (limb_lower_bits_down n))).
Proof.
  intros Hw. unfold is_u64 in *.
  assert (H0 : 0 <= Z.land w (lnot64 (limb_lower_bits_down n))).
  { apply Z.land_nonneg. left. lia. }
  split; [exact H0 |].
  destruct (Z.eq_dec (Z.land w (lnot64 (limb_lower_bits_down n))) 0) as [E|E];
    [rewrite E; lia |].
  apply Z.log2_lt_pow2; [lia |].
  destruct (Z.eq_dec w 0) as [Ew | Ew].
  { subst w. rewrite Z.land_0_l in E. congruence. }
  eapply Z.le_lt_trans.
  - apply Z.log2_land; [lia | apply u64_range].
  - apply Z.min_lt_iff. left. apply Z.log2_lt_pow2; lia.
Qed.

End Patterns.

(** ** The scan of one limb *)

Section LimbScan.

Lemma scan1_from_some fuel limb b r :
  scan1_from fuel limb b = Some r ->
  b <= r < b + Z.of_nat fuel /\ Z.testbit limb r = true /\
  (forall j, b <= j < r -> Z.testbit limb j = false).
Proof.
  revert b. induction fuel as [| fuel IH]; intros b H; simpl in H.
  - discriminate.
  - destruct (Z.testbit limb b) eqn:Hb.
    + injection H as <-. repeat split; try lia. exact Hb.
    + apply IH in H. destruct H as (Hr & Ht & Hlow).
      repeat split; try lia; [exact Ht |].
      intros j Hj. destruct (Z.eq_dec j b) as [-> | Hne]; [exact Hb |].
      apply Hlow. lia.
Qed.

Lemma scan1_from_none fuel limb b :
  scan1_from fuel limb b = None ->
  forall j, b <= j < b + Z.of_nat fuel -> Z.testbit limb j = false.
Proof.
  revert b. induction fuel as [| fuel IH]; intros b H j Hj; simpl in H.
  - lia.
  - destruct (Z.testbit limb b) eqn:Hb; [discriminate |].
    destruct (Z.eq_dec j b) as [-> | Hne]; [exact Hb |].
    apply (IH (b + 1) H). lia.
Qed.

(** On a non-zero limb the scan from bit 0 finds the least set bit. *)
Lemma mpn_scan1_nonzero limb :
  is_u64 limb -> limb <> 0 ->
  exists b, mpn_scan1 limb 0 = Some b /\ 0 <= b < 64 /\
            Z.testbit limb b = true /\
            (forall j, 0 <= j < b -> Z.testbit limb j = false).
Proof.
  intros Hr Hnz. unfold mpn_scan1.
  destruct (scan1_from (Z.to_nat (LIMB_BITS - 0)) limb 0) as [b |] eqn:E.
  - apply scan1_from_some in E. destruct E as (Hb & Ht & Hlow).
    exists b. repeat split; try assumption; try lia.
    change (Z.of_nat (Z.to_nat (LIMB_BITS - 0))) with 64 in Hb. lia.
  - destruct (is_u64_nonzero_bit limb Hr Hnz) as (j & Hj & Hbit).
    pose proof (scan1_from_none _ _ _ E j) as Hnone.
    change (Z.of_nat (Z.to_nat (LIMB_BITS - 0))) with 64 in Hnone.
    rewrite Hnone in Hbit by lia. discriminate.
Qed.

Lemma first_in_limb_zero : _bitset_first_in_limb 0 = Some SENTINEL.
Proof. reflexivity. Qed.

Lemma first_in_limb_nonzero limb :
  is_u64 limb -> limb <> 0 ->
  exists b, _bitset_first_in_limb limb = Some b /\
            _bitset_first_in_limb_nonzero limb = Some b /\
            0 <= b < 64 /\ Z.testbit limb b = true /\
            (forall j, 0 <= j < b -> Z.testbit limb j = false).
Proof.
  intros Hr Hnz.
  destruct (mpn_scan1_nonzero limb Hr Hnz) as (b & E & Hb & Ht & Hlow).
  exists b. unfold _bitset_first_in_limb, _bitset_first_in_limb_nonzero.
  destruct (Z.eqb_spec limb 0) as [-> | _]; [congruence |].
  rewrite E. simpl.
  rewrite u64_small by (unfold is_u64; lia).
  rewrite s64_small by lia. auto.
Qed.

End LimbScan.

(** ** Accesses to the buffer *)

Section StoreFacts.

Lemma shiftr_index n : Z.shiftr n index_shift = n / LIMB_BITS.
Proof. unfold index_shift, LIMB_BITS. apply Z.shiftr_div_pow2. lia. Qed.

Lemma valid_index_word (bits : list Z) n :
  valid_index bits n ->
  0 <= n / LIMB_BITS /\ exists w, bits !! Z.to_nat (n / LIMB_BITS) = Some w.
Proof.
  unfold valid_index, LIMB_BITS. intros Hn.
  assert (Hq : 0 <= n / 64 < Z.of_nat (length bits)).
  { split; [apply Z.div_pos; lia | apply Z.div_lt_upper_bound; lia]. }
  split; [lia |]. apply lookup_lt_is_Some_2. lia.
Qed.

Lemma load_done s i w :
  0 <= i -> limbs s !! Z.to_nat i = Some w ->
  load i s = Done w (mkMem (limbs s) (trace s ++ [Rd i])).
Proof.
  intros Hi Hw. unfold load.
  destruct (Z.ltb_spec i 0); [lia |]. rewrite Hw. reflexivity.
Qed.

Lemma store_done s i v w :
  0 <= i -> limbs s !! Z.to_nat i = Some w ->
  store i v s = Done tt (mkMem (<[Z.to_nat i := v]> (limbs s))
                                 (trace s ++ [Wr i])).
Proof.
  intros Hi Hw. unfold store.
  destruct (Z.ltb_spec i 0); [lia |]. rewrite Hw. reflexivity.
Qed.

(** [bitset_add] on a valid index: one read and one write of word [n / 64],
    which receives the old word with the bit of [n] or-ed in. *)
Lemma bitset_add_done s n w :
  0 <= n / LIMB_BITS -> limbs s !! Z.to_nat (n / LIMB_BITS) = Some w ->
  bitset_add n s =
  Done tt (mkMem (<[Z.to_nat (n / LIMB_BITS) :=
                       Z.lor w (limb_one_set_bit n)]> (limbs s))
                   (trace s ++ [Rd (n / LIMB_BITS); Wr (n / LIMB_BITS)])).
Proof.
  intros Hi Hw. unfold bitset_add, bind. rewrite shiftr_index.
  rewrite (load_done s _ w Hi Hw).
  erewrite store_done by (simpl; eassumption). simpl.
  rewrite <- app_assoc. reflexivity.
Qed.

(** [bitset_discard] on a valid index: one read and one write of word
    [n / 64], which receives the old word and-ed with the pattern. *)
Lemma bitset_discard_done s n w :
  0 <= n / LIMB_BITS -> limbs s !! Z.to_nat (n / LIMB_BITS) = Some w ->
  bitset_discard n s =
  Done tt (mkMem (<[Z.to_nat (n / LIMB_BITS) :=
                       Z.land w (limb_one_zero_bit n)]> (limbs s))
                   (trace s ++ [Rd (n / LIMB_BITS); Wr (n / LIMB_BITS)])).
Proof.
  intros Hi Hw. unfold bitset_discard, bind. rewrite shiftr_index.
  rewrite (load_done s _ w Hi Hw).
  erewrite store_done by (simpl; eassumption). simpl.
  rewrite <- app_assoc. reflexivity.
Qed.

Lemma bitset_in_done s n w :
  0 <= n / LIMB_BITS -> limbs s !! Z.to_nat (n / LIMB_BITS) = Some w ->
  bitset_in n s =
  Done (s32 (Z.land w (limb_one_set_bit n)))
       (mkMem (limbs s) (trace s ++ [Rd (n / LIMB_BITS)])).
Proof.
  intros Hi Hw. unfold bitset_in, bind. rewrite shiftr_index.
  rewrite (load_done s _ w Hi Hw). reflexivity.
Qed.

Lemma lookup_updated_word (bits : list Z) i w v :
  bits !! i = Some w -> <[i := v]> bits !! i = Some v.
Proof.
  intros Hw. apply list_lookup_insert_eq. eapply lookup_lt_Some. exact Hw.
Qed.

End StoreFacts.

(** ** Index arithmetic of the scanner *)

Section IndexFacts.

Lemma split_index k i :
  i * 64 <= k < i * 64 + 64 ->
  k / LIMB_BITS = i /\ k mod LIMB_BITS = k - i * 64.
Proof.
  unfold LIMB_BITS. intros Hk.
  pose proof (Z.div_mod k 64 ltac:(lia)) as Hdm.
  pose proof (Z.mod_pos_bound k 64 ltac:(lia)) as Hm.
  assert (k / 64 = i) by nia. split; [assumption | nia].
Qed.

(** [(i << index_shift) | r] is [64 * i + r] when [r] is a bit offset. *)
Lemma compose_index i r :
  0 <= i -> i * 64 < 2 ^ 64 -> 0 <= r < 64 ->
  Z.lor (u64 (Z.shiftl i index_shift)) r = i * 64 + r.
Proof.
  intros Hi Hcap Hr. unfold index_shift.
  rewrite Z.shiftl_mul_pow2 by lia. change (2 ^ 6) with 64.
  rewrite u64_small by (unfold is_u64; lia).
  symmetry. apply Z.add_nocarry_lor. apply Z.bits_inj_0. intros j.
  rewrite Z.land_spec. destruct (Z.ltb_spec j 6) as [Hlo | Hhi].
  - change 64 with (2 ^ 6). rewrite Z.mul_pow2_bits_low by lia. reflexivity.
  - assert (Z.testbit r j = false) as ->; [| apply andb_false_r].
    destruct (Z.eq_dec r 0) as [-> | Hnz]; [apply Z.testbit_0_l |].
    apply Z.bits_above_log2; [lia |].
    apply Z.log2_lt_pow2; [lia |].
    apply Z.lt_le_trans with (2 ^ 6); [simpl; lia |].
    apply Z.pow_le_mono_r; lia.
Qed.

Lemma bit_set_at (bits : list Z) i b w :
  0 <= i -> 0 <= b < 64 -> bits !! Z.to_nat i = Some w ->
  bit_set bits (i * 64 + b) = Z.testbit w b.
Proof.
  intros Hi Hb Hw. unfold bit_set.
  destruct (split_index (i * 64 + b) i ltac:(lia)) as [Hq Hm].
  destruct (Z.ltb_spec (i * 64 + b) 0); [lia |].
  rewrite Hq, Hw, Hm. f_equal. lia.
Qed.

Lemma bit_set_in_word (bits : list Z) i k w :
  0 <= i -> i * 64 <= k < i * 64 + 64 -> bits !! Z.to_nat i = Some w ->
  bit_set bits k = Z.testbit w (k - i * 64).
Proof.
  intros Hi Hk Hw. rewrite <- (bit_set_at bits i (k - i * 64) w) by (lia || auto).
  f_equal. lia.
Qed.

Lemma bitset_ok_word L (bits : list Z) i :
  bitset_ok L bits -> 0 <= i < L ->
  exists w, bits !! Z.to_nat i = Some w /\ is_u64 w.
Proof.
  intros [Hlen Hall Hcap] Hi.
  destruct (lookup_lt_is_Some_2 bits (Z.to_nat i) ltac:(lia)) as [w Hw].
  exists w. split; [exact Hw |].
  rewrite Forall_lookup in Hall. eapply Hall. exact Hw.
Qed.

End IndexFacts.

(** ** The forward scan *)

Section Scanner.

Variable L : Z.
Variable bits : list Z.
Hypothesis Hok : bitset_ok L bits.

Lemma capacity_bounds : 0 <= L /\ L * 64 < 2 ^ 64.
Proof.
  destruct Hok as [Hlen _ Hcap]. unfold LIMB_BITS in Hcap. lia.
Qed.

(** The whole-word loop started at word [i] searches [64 * i, 64 * L). *)
Lemma bitset_next_loop_spec fuel :
  forall i s,
    limbs s = bits -> 0 <= i <= L -> (Z.to_nat (L - i) < fuel)%nat ->
    exists r s',
      bitset_next_loop fuel L i s = Done r s' /\ limbs s' = bits /\
      next_result bits (i * 64) (L * 64) r.
Proof.
  pose proof capacity_bounds as [HL Hcap].
  induction fuel as [| fuel IH]; intros i s Hs Hi Hfuel; [lia |].
  simpl. destruct (Z.ltb_spec i L) as [Hlt | Hge].
  - destruct (bitset_ok_word L bits i Hok ltac:(lia)) as (w & Hw & Hrange).
    unfold bind at 1. rewrite (load_done s i w) by (lia || rewrite Hs; exact Hw).
    set (s1 := mkMem (limbs s) (trace s ++ [Rd i])).
    assert (Hs1 : limbs s1 = bits) by exact Hs.
    destruct (Z.eqb_spec w 0) as [Hz | Hnz]; simpl.
    + rewrite u64_small by (unfold is_u64; lia).
      destruct (IH (i + 1) s1 Hs1 ltac:(lia) ltac:(lia)) as (r & s' & E & Hl & Hr).
      exists r, s'. split; [exact E |]. split; [exact Hl |].
      assert (Hword : forall k, i * 64 <= k < (i + 1) * 64 ->
                                bit_set bits k = false).
      { intros k Hk. rewrite (bit_set_in_word bits i k w) by (lia || auto).
        subst w. apply Z.testbit_0_l. }
      destruct Hr as [[-> Hnone] | (Hr & Hset & Hlow)].
      * left. split; [reflexivity |]. intros k Hk.
        destruct (Z.lt_ge_cases k ((i + 1) * 64)); [apply Hword | apply Hnone]; lia.
      * right. split; [lia |]. split; [exact Hset |]. intros k Hk.
        destruct (Z.lt_ge_cases k ((i + 1) * 64)); [apply Hword | apply Hlow]; lia.
    + destruct (first_in_limb_nonzero w Hrange Hnz) as (b & _ & Eb & Hb & Hset & Hlow).
      unfold bind. rewrite (load_done s1 i w) by (lia || rewrite Hs1; exact Hw).
      unfold lift. rewrite Eb. unfold ret.
      rewrite (u64_small b) by (unfold is_u64; lia).
      rewrite compose_index by lia.
      eexists _, _. split; [reflexivity |]. split; [exact Hs |].
      right. split; [lia |]. split.
      * rewrite (bit_set_at bits i b w) by (lia || auto). exact Hset.
      * intros k Hk. rewrite (bit_set_in_word bits i k w) by (lia || auto).
        apply Hlow. lia.
  - assert (i = L) as -> by lia. unfold ret.
    exists (u64 (-1)), s. split; [reflexivity |]. split; [exact Hs |].
    left. split; [reflexivity |]. intros k Hk. lia.
Qed.

(** [bitset_next] returns, leaves the words alone, and its result is the
    least set index at or after [n], or the sentinel. *)
Lemma bitset_next_spec n s :
  limbs s = bits -> is_u64 n ->
  exists r s',
    bitset_next L n s = Done r s' /\ limbs s' = bits /\
    next_result bits n (L * 64) r.
Proof.
  pose proof capacity_bounds as [HL Hcap].
  intros Hs Hn. unfold is_u64 in Hn. unfold bitset_next.
  unfold LIMB_BITS at 1. rewrite (u64_small (L * 64)) by (unfold is_u64; lia).
  destruct (Z.leb_spec (L * 64) n) as [Hout | Hin].
  { exists (u64 (-1)), s. split; [reflexivity |]. split; [exact Hs |].
    left. split; [reflexivity |]. intros k Hk. lia. }
  rewrite shiftr_index.
  pose proof (offset_range n) as Hoff.
  assert (Hn64 : n = n / LIMB_BITS * 64 + n mod LIMB_BITS).
  { unfold LIMB_BITS. pose proof (Z.div_mod n 64 ltac:(lia)). lia. }
  set (i := n / LIMB_BITS) in *. set (o := n mod LIMB_BITS) in *.
  assert (Hi : 0 <= i < L) by nia.
  destruct (bitset_ok_word L bits i Hok Hi) as (w & Hw & Hrange).
  unfold bind at 1. rewrite (load_done s i w) by (lia || rewrite Hs; exact Hw).
  set (s1 := mkMem (limbs s) (trace s ++ [Rd i])).
  assert (Hs1 : limbs s1 = bits) by exact Hs.
  set (limb := Z.land w (lnot64 (limb_lower_bits_down n))).
  assert (Hlimb : is_u64 limb) by (apply masked_limb_range; exact Hrange).
  assert (Hbits : forall j, 0 <= j ->
            Z.testbit limb j = Z.testbit w j && (o <=? j)).
  { intros j Hj. apply masked_limb_testbit; assumption. }
  destruct (Z.eq_dec limb 0) as [Hz | Hnz].
  - rewrite Hz. unfold bind, lift. rewrite first_in_limb_zero.
    change (negb (SENTINEL =? u64 (-1))) with false. cbv iota.
    rewrite u64_small by (unfold is_u64; lia).
    destruct (bitset_next_loop_spec (S (Z.to_nat L)) (i + 1) s1 Hs1
                ltac:(lia) ltac:(lia)) as (r & s' & E & Hl & Hr).
    exists r, s'. split; [exact E |]. split; [exact Hl |].
    assert (Hword : forall k, n <= k < (i + 1) * 64 -> bit_set bits k = false).
    { intros k Hk. rewrite (bit_set_in_word bits i k w) by (lia || auto).
      pose proof (Hbits (k - i * 64) ltac:(lia)) as Hb.
      rewrite Hz, Z.testbit_0_l in Hb.
      destruct (Z.leb_spec o (k - i * 64)); [| lia].
      rewrite andb_true_r in Hb. congruence. }
    destruct Hr as [[-> Hnone] | (Hr & Hset & Hlow)].
    + left. split; [reflexivity |]. intros k Hk.
      destruct (Z.lt_ge_cases k ((i + 1) * 64)); [apply Hword | apply Hnone]; lia.
    + right. split; [lia |]. split; [exact Hset |]. intros k Hk.
      destruct (Z.lt_ge_cases k ((i + 1) * 64)); [apply Hword | apply Hlow]; lia.
  - destruct (first_in_limb_nonzero limb Hlimb Hnz) as (b & Eb & _ & Hb & Hset & Hlow).
    unfold bind, lift. rewrite Eb.
    assert (Hnot : (b =? u64 (-1)) = false).
    { apply Z.eqb_neq. change (u64 (-1)) with (2 ^ 64 - 1). lia. }
    rewrite Hnot. simpl negb. cbv iota. unfold ret.
    rewrite compose_index by lia.
    rewrite Hbits in Hset by lia. apply andb_true_iff in Hset.
    destruct Hset as [Hwb Hob]. apply Z.leb_le in Hob.
    eexists _, _. split; [reflexivity |]. split; [exact Hs |].
    right. split; [lia |]. split.
    + rewrite (bit_set_at bits i b w) by (lia || auto). exact Hwb.
    + intros k Hk. rewrite (bit_set_in_word bits i k w) by (lia || auto).
      pose proof (Hlow (k - i * 64) ltac:(lia)) as Hk0.
      rewrite Hbits in Hk0 by lia.
      destruct (Z.leb_spec o (k - i * 64)); [| lia].
      rewrite andb_true_r in Hk0. exact Hk0.
Qed.

End Scanner.

(** ** Iterating the scan *)

Section Iteration.

Lemma filter_none (f : Z -> bool) m len :
  (forall k, m <= k < m + len -> f k = false) ->
  List.filter f (seqZ m len) = [].
Proof.
  intros Hnone. apply (proj2 (Forall_seqZ (fun k => f k = false) m len)) in Hnone.
  induction Hnone as [| k l Hk _ IH]; simpl; [reflexivity |].
  rewrite Hk. exact IH.
Qed.

Lemma filter_first_hit (f : Z -> bool) m r hi :
  m <= r < hi -> f r = true -> (forall k, m <= k < r -> f k = false) ->
  List.filter f (seqZ m (hi - m)) =
  r :: List.filter f (seqZ (r + 1) (hi - (r + 1))).
Proof.
  intros Hr Hset Hlow.
  replace (hi - m) with ((r - m) + (hi - r)) by lia.
  rewrite seqZ_app by lia. rewrite List.filter_app.
  rewrite filter_none by (intros k Hk; apply Hlow; lia).
  replace (m + (r - m)) with r by lia.
  rewrite seqZ_cons by lia. simpl. rewrite Hset.
  f_equal. f_equal. f_equal; lia.
Qed.

Lemma seqZ_increasing len : forall m, StronglySorted Z.lt (seqZ m (Z.of_nat len)).
Proof.
  induction len as [| len IH]; intros m.
  - constructor.
  - rewrite seqZ_cons by lia.
    replace (Z.pred (Z.of_nat (S len))) with (Z.of_nat len) by lia.
    constructor; [apply IH |].
    apply Forall_seqZ. intros k Hk. lia.
Qed.

Lemma filter_increasing (f : Z -> bool) l :
  StronglySorted Z.lt l -> StronglySorted Z.lt (List.filter f l).
Proof.
  induction 1 as [| k l Hl IH Hk]; simpl; [constructor |].
  destruct (f k); [| exact IH].
  constructor; [exact IH |].
  rewrite Forall_forall in Hk |- *. intros x Hx.
  apply Hk. apply list_elem_of_In in Hx. apply filter_In in Hx.
  apply list_elem_of_In. tauto.
Qed.

Lemma set_bits_increasing (f : Z -> bool) m len :
  StronglySorted Z.lt (List.filter f (seqZ m len)).
Proof.
  apply filter_increasing.
  destruct (Z.le_gt_cases 0 len) as [Hpos | Hneg].
  - rewrite <- (Z2Nat.id len Hpos). apply seqZ_increasing.
  - unfold seqZ. replace (Z.to_nat len) with O by lia. constructor.
Qed.

Lemma set_bits_members (f : Z -> bool) m len k :
  In k (List.filter f (seqZ m len)) <-> m <= k < m + len /\ f k = true.
Proof.
  rewrite filter_In, <- list_elem_of_In, elem_of_seqZ. tauto.
Qed.

Variable L : Z.
Variable bits : list Z.
Hypothesis Hok : bitset_ok L bits.

(** Resuming at [result + 1] until the sentinel lists the set bits from the
    start index on, in increasing order. *)
Lemma iterate_next_spec fuel :
  forall n s,
    limbs s = bits -> is_u64 n -> (Z.to_nat (L * 64 - n) < fuel)%nat ->
    iterate_next fuel L n s =
    Some (List.filter (bit_set bits) (seqZ n (L * 64 - n))).
Proof.
  pose proof (capacity_bounds L bits Hok) as [HL Hcap].
  induction fuel as [| fuel IH]; intros n s Hs Hn Hfuel; [lia |].
  pose proof Hn as Hn0. unfold is_u64 in Hn0.
  simpl. destruct (bitset_next_spec L bits Hok n s Hs Hn) as (r & s' & E & Hl & Hr).
  rewrite E. destruct Hr as [[-> Hnone] | (Hr & Hset & Hlow)].
  - rewrite Z.eqb_refl. rewrite filter_none; [reflexivity |].
    intros k Hk. apply Hnone. lia.
  - assert (Hne : (r =? SENTINEL) = false).
    { apply Z.eqb_neq. rewrite SENTINEL_eq. lia. }
    rewrite Hne. rewrite u64_small by (unfold is_u64; lia).
    rewrite (IH (r + 1) s' Hl) by (unfold is_u64; lia).
    simpl. f_equal. symmetry. apply filter_first_hit; assumption.
Qed.

End Iteration.

(** ** Computations that only read *)

Section ReadOnly.

Lemma read_only_ret {A} (a : A) : read_only (ret a).
Proof.
  intros s. simpl. split; [reflexivity |].
  exists []. rewrite app_nil_r. auto.
Qed.

Lemma read_only_lift {A} (o : option A) : read_only (lift o).
Proof.
  intros s. unfold lift. destruct o as [a |]; simpl; [| exact I].
  split; [reflexivity |]. exists []. rewrite app_nil_r. auto.
Qed.

Lemma read_only_load i : read_only (load i).
Proof.
  intros s. unfold load. destruct (i <? 0); [exact I |].
  destruct (limbs s !! Z.to_nat i) as [w |]; simpl; [| exact I].
  split; [reflexivity |]. exists [Rd i]. auto.
Qed.

Lemma read_only_bind {A B} (m : M A) (k : A -> M B) :
  read_only m -> (forall a, read_only (k a)) -> read_only (bind m k).
Proof.
  intros Hm Hk s. unfold bind. specialize (Hm s).
  destruct (m s) as [a s1 | |]; simpl; try exact I.
  destruct Hm as (Hl1 & t1 & Ht1 & Hr1).
  specialize (Hk a s1). destruct (k a s1) as [b s2 | |]; simpl; try exact I.
  destruct Hk as (Hl2 & t2 & Ht2 & Hr2).
  split; [congruence |]. exists (t1 ++ t2). split.
  - rewrite Ht2, Ht1, app_assoc. reflexivity.
  - rewrite forallb_app, Hr1, Hr2. reflexivity.
Qed.

Lemma read_only_loop fuel L : forall i, read_only (bitset_next_loop fuel L i).
Proof.
  induction fuel as [| fuel IH]; intros i; simpl.
  - intros s. exact I.
  - destruct (i <? L); [| apply read_only_ret].
    apply read_only_bind; [apply read_only_load |]. intros w.
    destruct (negb (w =? 0)); [| apply IH].
    apply read_only_bind; [apply read_only_load |]. intros w'.
    apply read_only_bind; [apply read_only_lift |]. intros r.
    apply read_only_ret.
Qed.

End ReadOnly.

(** ** Membership, insertion and removal of one index *)

Section Mutators.

Lemma land_pow2 w k :
  0 <= k -> Z.land w (2 ^ k) = if Z.testbit w k then 2 ^ k else 0.
Proof.
  intros Hk. apply Z.bits_inj'. intros j Hj.
  rewrite Z.land_spec, Z.pow2_bits_eqb by lia.
  destruct (Z.eqb_spec k j) as [-> | Hne].
  - destruct (Z.testbit w j); simpl.
    + rewrite Z.pow2_bits_true by lia. reflexivity.
    + rewrite Z.testbit_0_l. reflexivity.
  - rewrite andb_false_r. destruct (Z.testbit w k).
    + rewrite Z.pow2_bits_false by lia. reflexivity.
    + rewrite Z.testbit_0_l. reflexivity.
Qed.

(** The [int] that [bitset_in] returns keeps the low 32 bits of the masked
    limb: a bit at offset 32 or more never shows in it. *)
Lemma s32_pow2 k :
  0 <= k < 64 -> (s32 (2 ^ k) =? 0) = (32 <=? k).
Proof.
  intros Hk. unfold s32.
  destruct (Z.leb_spec 32 k) as [Hhi | Hlo].
  - apply Z.eqb_eq.
    replace k with ((k - 32) + 32) by lia.
    rewrite Z.pow_add_r by lia.
    rewrite Z.add_comm, Z.mod_add by lia. reflexivity.
  - apply Z.eqb_neq.
    assert (Hp : 0 < 2 ^ k <= 2 ^ 31).
    { split; [apply Z.pow_pos_nonneg; lia | apply Z.pow_le_mono_r; lia]. }
    destruct (Z.eq_dec (2 ^ k) (2 ^ 31)) as [E | Hne].
    + rewrite E. discriminate.
    + rewrite Z.mod_small by lia. lia.
Qed.

Lemma bitset_in_result n s :
  valid_index (limbs s) n ->
  exists r s',
    bitset_in n s = Done r s' /\ limbs s' = limbs s /\
    (r =? 0) = negb (bit_set (limbs s) n && (n mod LIMB_BITS <? 32)).
Proof.
  intros Hn. pose proof Hn as Hn0. unfold valid_index in Hn0.
  destruct (valid_index_word _ _ Hn) as (Hi & w & Hw).
  rewrite (bitset_in_done s n w Hi Hw). eexists _, _.
  split; [reflexivity |]. split; [reflexivity |].
  pose proof (offset_range n) as Hk.
  rewrite limb_one_set_bit_pow2, land_pow2 by lia.
  unfold bit_set. destruct (Z.ltb_spec n 0); [lia |]. rewrite Hw.
  destruct (Z.testbit w (n mod LIMB_BITS)); simpl.
  - rewrite s32_pow2 by lia.
    destruct (Z.leb_spec 32 (n mod LIMB_BITS));
      destruct (Z.ltb_spec (n mod LIMB_BITS) 32); simpl; lia || reflexivity.
  - reflexivity.
Qed.

(** [bitset_discard] stores the zero limb in word [n / 64]. *)
Lemma bitset_discard_result n s :
  valid_index (limbs s) n ->
  bitset_discard n s =
  Done tt (mkMem (<[Z.to_nat (n / LIMB_BITS) := 0]> (limbs s))
                   (trace s ++ [Rd (n / LIMB_BITS); Wr (n / LIMB_BITS)])).
Proof.
  intros Hn. destruct (valid_index_word _ _ Hn) as (Hi & w & Hw).
  rewrite (bitset_discard_done s n w Hi Hw).
  rewrite limb_one_zero_bit_zero, Z.land_0_r. reflexivity.
Qed.

(** After [bitset_discard] the index is reported absent. *)
Lemma bitset_in_after_discard n s :
  valid_index (limbs s) n ->
  exists s1 s2, bitset_discard n s = Done tt s1 /\ bitset_in n s1 = Done 0 s2.
Proof.
  intros Hn. destruct (valid_index_word _ _ Hn) as (Hi & w & Hw).
  rewrite (bitset_discard_result n s Hn). eexists _, _.
  split; [reflexivity |].
  erewrite bitset_in_done;
    [| exact Hi | simpl; eapply lookup_updated_word; exact Hw].
  rewrite Z.land_0_l. reflexivity.
Qed.

End Mutators.

(** * The specification, claim by claim *)

(** C1: on a buffer of [L] limbs [bitset_next(bits, L, n)] returns, without
    changing a word, the least index [i >= n] whose bit is set, or the
    sentinel when no index in [n, 64 * L) has its bit set; started at
    [64 * L] it returns the sentinel; and calling it again and again from
    [result + 1], starting at 0, stops with the sentinel after having
    produced exactly the set bits of the buffer, each once, in strictly
    increasing order. *)
Theorem bitset_next_scan_order L n s :
  bitset_ok L (limbs s) -> is_u64 n ->
  (exists r s',
     bitset_next L n s = Done r s' /\ limbs s' = limbs s /\
     next_result (limbs s) n (L * LIMB_BITS) r) /\
  (exists s', bitset_next L (L * LIMB_BITS) s = Done SENTINEL s') /\
  (forall fuel, (Z.to_nat (L * LIMB_BITS) < fuel)%nat ->
     exists l,
       iterate_next fuel L 0 s = Some l /\
       l = List.filter (bit_set (limbs s)) (seqZ 0 (L * LIMB_BITS)) /\
       StronglySorted Z.lt l /\
       forall k, In k l <->
                 0 <= k < L * LIMB_BITS /\ bit_set (limbs s) k = true).
Proof.
  intros Hok Hn. unfold LIMB_BITS.
  pose proof (capacity_bounds L _ Hok) as [HL Hcap].
  split; [| split].
  - exact (bitset_next_spec L (limbs s) Hok n s eq_refl Hn).
  - destruct (bitset_next_spec L (limbs s) Hok (L * 64) s eq_refl
                ltac:(unfold is_u64; lia)) as (r & s' & E & _ & Hr).
    destruct Hr as [[-> _] | (Hr & _)]; [| lia]. exists s'. exact E.
  - intros fuel Hfuel. eexists. split.
    + rewrite (iterate_next_spec L (limbs s) Hok fuel 0 s eq_refl)
        by (unfold is_u64; lia).
      rewrite Z.sub_0_r. reflexivity.
    + split; [reflexivity |]. split; [apply set_bits_increasing |].
      intros k. rewrite set_bits_members. rewrite Z.add_0_l. tauto.
Qed.

Lemma bitset_next_scan_order_witness :
  bitset_ok 2 (limbs scenario) /\ is_u64 4 /\
  exists r s',
    bitset_next 2 4 scenario = Done r s' /\ limbs s' = limbs scenario /\
    next_result (limbs scenario) 4 (2 * LIMB_BITS) r.
Proof.
  assert (Hok : bitset_ok 2 (limbs scenario)).
  { constructor; [reflexivity | | reflexivity].
    change (limbs scenario) with [8; 9223372036854775872].
    constructor; [unfold is_u64; lia |].
    constructor; [unfold is_u64; lia | constructor]. }
  assert (Hn : is_u64 4) by (unfold is_u64; lia).
  split; [exact Hok |]. split; [exact Hn |].
  exact (proj1 (bitset_next_scan_order 2 4 scenario Hok Hn)).
Defined.

(** C2: [discard(bits, n)] clears bit [n] and no other bit, and changes
    nothing when [n] was absent.  The code does not do that: removing 0
    from the one-limb set {0, 1} also removes 1, and removing the absent 0
    from {1} removes 1. *)
Theorem bitset_discard_clears_neighbours :
  bit_set [3] 1 = true /\
  (exists s', bitset_discard 0 (mkMem [3] []) = Done tt s' /\
              bit_set (limbs s') 1 = false) /\
  bit_set [2] 0 = false /\
  (exists s', bitset_discard 0 (mkMem [2] []) = Done tt s' /\
              limbs s' = [0]).
Proof.
  split; [reflexivity |]. split; [eexists; split; reflexivity |].
  split; [reflexivity |]. eexists; split; reflexivity.
Qed.

(** C3: [test(bits, n)] is true exactly when bit [n] is set, in particular
    right after [add(bits, n)].  The code does not do that: after adding
    32 to the empty one-limb set, bit 32 is set and [bitset_in] returns 0. *)
Theorem bitset_in_after_add_offset_32 :
  exists s1 s2,
    bitset_add 32 (mkMem [0] []) = Done tt s1 /\
    bit_set (limbs s1) 32 = true /\
    bitset_in 32 s1 = Done 0 s2.
Proof.
  eexists _, _. split; [reflexivity |]. split; reflexivity.
Qed.

(** C4: [single_cleared(n)] is the complement of [single_set(n)].  The code
    does not compute that: at index 0 [limb_one_zero_bit] is the zero limb,
    while the complement of [limb_one_set_bit 0] is [2^64 - 2]. *)
Theorem limb_one_zero_bit_at_0 :
  limb_one_zero_bit 0 = 0 /\ lnot64 (limb_one_set_bit 0) = 2 ^ 64 - 2.
Proof. split; reflexivity. Qed.

(** C5: in the two-limb buffer whose set bits are exactly 3, 70 and 127,
    the scan from 0 gives 3, from 4 gives 70, from 71 gives 127 and from
    128 gives the sentinel. *)
Theorem scenario_next :
  List.filter (bit_set (limbs scenario)) (seqZ 0 128) = [3; 70; 127] /\
  (exists s', bitset_next 2 0 scenario = Done 3 s') /\
  (exists s', bitset_next 2 4 scenario = Done 70 s') /\
  (exists s', bitset_next 2 71 scenario = Done 127 s') /\
  (exists s', bitset_next 2 128 scenario = Done SENTINEL s').
Proof.
  split; [vm_compute; reflexivity |].
  repeat split; eexists; vm_compute; reflexivity.
Qed.

(** C6: for a valid index, adding twice leaves the same words as adding
    once, and discarding twice leaves the same words as discarding once. *)
Theorem add_discard_idempotent n s :
  valid_index (limbs s) n ->
  (exists s1 s2, bitset_add n s = Done tt s1 /\
                 bitset_add n s1 = Done tt s2 /\ limbs s2 = limbs s1) /\
  (exists s1 s2, bitset_discard n s = Done tt s1 /\
                 bitset_discard n s1 = Done tt s2 /\ limbs s2 = limbs s1).
Proof.
  intros Hn. destruct (valid_index_word _ _ Hn) as (Hi & w & Hw). split.
  - eexists _, _. split; [exact (bitset_add_done s n w Hi Hw) |].
    split.
    + apply bitset_add_done; [exact Hi |]. simpl.
      eapply lookup_updated_word. exact Hw.
    + simpl. rewrite list_insert_insert_eq.
      rewrite <- Z.lor_assoc, Z.lor_diag. reflexivity.
  - eexists _, _. split; [exact (bitset_discard_done s n w Hi Hw) |].
    split.
    + apply bitset_discard_done; [exact Hi |]. simpl.
      eapply lookup_updated_word. exact Hw.
    + simpl. rewrite list_insert_insert_eq.
      rewrite <- Z.land_assoc, Z.land_diag. reflexivity.
Qed.

Lemma add_discard_idempotent_witness :
  valid_index [5; 0] 70 /\
  exists s1 s2, bitset_add 70 (mkMem [5; 0] []) = Done tt s1 /\
                bitset_add 70 s1 = Done tt s2 /\ limbs s2 = limbs s1.
Proof.
  assert (Hn : valid_index (limbs (mkMem [5; 0] [])) 70).
  { unfold valid_index, LIMB_BITS. simpl. lia. }
  split; [exact Hn |].
  exact (proj1 (add_discard_idempotent 70 (mkMem [5; 0] []) Hn)).
Defined.

(** C7: for a valid index, [add] and [discard] access word [n / 64] only;
    every other word, and the length of the buffer, is as before. *)
Theorem mutators_touch_one_word n s :
  valid_index (limbs s) n ->
  exists s1 s2,
    bitset_add n s = Done tt s1 /\ bitset_discard n s = Done tt s2 /\
    (forall j : nat, j <> Z.to_nat (n / LIMB_BITS) ->
       limbs s1 !! j = limbs s !! j /\ limbs s2 !! j = limbs s !! j) /\
    length (limbs s1) = length (limbs s) /\
    length (limbs s2) = length (limbs s) /\
    trace s1 = trace s ++ [Rd (n / LIMB_BITS); Wr (n / LIMB_BITS)] /\
    trace s2 = trace s ++ [Rd (n / LIMB_BITS); Wr (n / LIMB_BITS)].
Proof.
  intros Hn. destruct (valid_index_word _ _ Hn) as (Hi & w & Hw).
  eexists _, _.
  split; [exact (bitset_add_done s n w Hi Hw) |].
  split; [exact (bitset_discard_done s n w Hi Hw) |]. simpl.
  split.
  - intros j Hj. split; apply list_lookup_insert_ne; congruence.
  - rewrite !length_insert. auto.
Qed.

Lemma mutators_touch_one_word_witness :
  valid_index [5; 7] 70 /\
  exists s1 s2,
    bitset_add 70 (mkMem [5; 7] []) = Done tt s1 /\
    bitset_discard 70 (mkMem [5; 7] []) = Done tt s2 /\
    limbs s1 !! 0%nat = Some 5 /\ limbs s2 !! 0%nat = Some 5.
Proof.
  assert (Hn : valid_index (limbs (mkMem [5; 7] [])) 70).
  { unfold valid_index, LIMB_BITS. simpl. lia. }
  split; [exact Hn |].
  destruct (mutators_touch_one_word 70 (mkMem [5; 7] []) Hn)
    as (s1 & s2 & E1 & E2 & Hframe & _).
  exists s1, s2. split; [exact E1 |]. split; [exact E2 |].
  apply (Hframe 0%nat). vm_compute. discriminate.
Defined.

(** C8: [_bitset_first_in_limb] returns the sentinel on the zero limb, and
    on a non-zero limb it and [_bitset_first_in_limb_nonzero] return the
    same value, the position of the least significant set bit. *)
Theorem first_in_limb_variants_agree limb :
  is_u64 limb -> limb <> 0 ->
  _bitset_first_in_limb 0 = Some SENTINEL /\
  exists b,
    _bitset_first_in_limb limb = Some b /\
    _bitset_first_in_limb_nonzero limb = Some b /\
    0 <= b < 64 /\ Z.testbit limb b = true /\
    forall j, 0 <= j < b -> Z.testbit limb j = false.
Proof.
  intros Hr Hnz. split; [apply first_in_limb_zero |].
  apply first_in_limb_nonzero; assumption.
Qed.

Lemma first_in_limb_variants_agree_witness :
  is_u64 40 /\ 40 <> 0 /\
  exists b, _bitset_first_in_limb 40 = Some b /\
            _bitset_first_in_limb_nonzero 40 = Some b.
Proof.
  assert (Hr : is_u64 40) by (unfold is_u64; lia).
  assert (Hnz : 40 <> 0) by lia.
  split; [exact Hr |]. split; [exact Hnz |].
  destruct (first_in_limb_variants_agree 40 Hr Hnz) as (_ & b & E1 & E2 & _).
  exists b. split; assumption.
Defined.

(** C9: [bitset_in] and [bitset_next] never write: for every buffer, limb
    count and index, whenever they return, every word is what it was and
    all they did to the buffer was read it. *)
Theorem readers_do_not_write L n :
  read_only (bitset_in n) /\ read_only (bitset_next L n).
Proof.
  split.
  - unfold bitset_in. apply read_only_bind; [apply read_only_load |].
    intros w. apply read_only_ret.
  - unfold bitset_next.
    destruct (u64 (L * LIMB_BITS) <=? n); [apply read_only_ret |].
    apply read_only_bind; [apply read_only_load |]. intros w.
    apply read_only_bind; [apply read_only_lift |]. intros r.
    destruct (negb (r =? u64 (-1))); [apply read_only_ret |].
    apply read_only_loop.
Qed.

(** C10: with a limb count of zero [bitset_next] returns the sentinel for
    every start index, and the memory it returns is the one it was given,
    access log included: no word was inspected. *)
Theorem bitset_next_zero_limbs n s :
  0 <= n -> bitset_next 0 n s = Done SENTINEL s.
Proof.
  intros Hn. unfold bitset_next. change (u64 (0 * LIMB_BITS)) with 0.
  destruct (Z.leb_spec 0 n); [reflexivity | lia].
Qed.

Lemma bitset_next_zero_limbs_witness :
  0 <= 0 /\ bitset_next 0 0 (mkMem [] []) = Done SENTINEL (mkMem [] []).
Proof.
  assert (Hn : 0 <= 0) by lia.
  split; [exact Hn |].
  exact (bitset_next_zero_limbs 0 (mkMem [] []) Hn).
Defined.

(** * Further properties of the code *)

(** ** Limbs and the set they stand for *)

Section SetView.

Lemma is_u64_lor a b : is_u64 a -> is_u64 b -> is_u64 (Z.lor a b).
Proof.
  unfold is_u64. intros Ha Hb.
  assert (H0 : 0 <= Z.lor a b) by (apply Z.lor_nonneg; lia).
  split; [exact H0 |].
  destruct (Z.eq_dec (Z.lor a b) 0) as [E | E]; [rewrite E; lia |].
  apply Z.log2_lt_pow2; [lia |]. rewrite Z.log2_lor by lia.
  apply Z.max_lub_lt.
  - destruct (Z.eq_dec a 0) as [-> | Hne]; [simpl; lia |].
    apply Z.log2_lt_pow2; lia.
  - destruct (Z.eq_dec b 0) as [-> | Hne]; [simpl; lia |].
    apply Z.log2_lt_pow2; lia.
Qed.

Lemma same_index k n :
  0 <= k -> 0 <= n ->
  (k =? n) = (k / LIMB_BITS =? n / LIMB_BITS) &&
             (n mod LIMB_BITS =? k mod LIMB_BITS).
Proof.
  unfold LIMB_BITS. intros Hk Hn.
  pose proof (Z.div_mod k 64 ltac:(lia)).
  pose proof (Z.div_mod n 64 ltac:(lia)).
  destruct (Z.eqb_spec k n) as [-> | Hne].
  - rewrite !Z.eqb_refl. reflexivity.
  - destruct (Z.eqb_spec (k / 64) (n / 64));
      destruct (Z.eqb_spec (n mod 64) (k mod 64)); simpl; lia || reflexivity.
Qed.

(** The bits of a buffer after word [i] has been replaced by [v]. *)
Lemma bit_set_insert (bits : list Z) i w v k :
  0 <= i -> bits !! Z.to_nat i = Some w ->
  bit_set (<[Z.to_nat i := v]> bits) k =
  if (0 <=? k) && (k / LIMB_BITS =? i) then Z.testbit v (k mod LIMB_BITS)
  else bit_set bits k.
Proof.
  intros Hi Hw. unfold bit_set.
  destruct (Z.ltb_spec k 0) as [Hneg | Hpos].
  - destruct (Z.leb_spec 0 k); [lia | reflexivity].
  - destruct (Z.leb_spec 0 k); [| lia]. simpl.
    assert (0 <= k / LIMB_BITS) by (unfold LIMB_BITS; apply Z.div_pos; lia).
    destruct (Z.eqb_spec (k / LIMB_BITS) i) as [-> | Hne].
    + rewrite (lookup_updated_word bits _ w v Hw). reflexivity.
    + rewrite list_lookup_insert_ne by lia. reflexivity.
Qed.

Lemma valid_index_ok L (bits : list Z) n :
  bitset_ok L bits -> 0 <= n < L * LIMB_BITS -> valid_index bits n.
Proof. intros [Hlen _ _] Hn. unfold valid_index. rewrite Hlen. exact Hn. Qed.

Lemma bitset_ok_insert L (bits : list Z) i v :
  bitset_ok L bits -> is_u64 v -> bitset_ok L (<[i := v]> bits).
Proof.
  intros [Hlen Hall Hcap] Hv. constructor.
  - rewrite length_insert. exact Hlen.
  - apply Forall_insert; assumption.
  - exact Hcap.
Qed.

Lemma next_result_hit (bits : list Z) lo hi r p :
  next_result bits lo hi r ->
  lo <= p < hi -> bit_set bits p = true ->
  (forall k, lo <= k < p -> bit_set bits k = false) -> r = p.
Proof.
  intros [[_ Hnone] | (Hr & Hset & Hlow)] Hp Hpset Hplow.
  - rewrite Hnone in Hpset by lia. discriminate.
  - destruct (Z.lt_trichotomy r p) as [Hlt | [-> | Hgt]]; [| reflexivity |].
    + rewrite Hplow in Hset by lia. discriminate.
    + rewrite Hlow in Hpset by lia. discriminate.
Qed.

Lemma next_result_none (bits : list Z) lo hi r :
  next_result bits lo hi r ->
  (forall k, lo <= k < hi -> bit_set bits k = false) -> r = SENTINEL.
Proof.
  intros [[-> _] | (Hr & Hset & _)] Hnone; [reflexivity |].
  rewrite Hnone in Hset by lia. discriminate.
Qed.

End SetView.

(** ** The patterns, bit by bit *)

(** X1: [limb_lower_bits_down n] has exactly the bits below offset
    [n mod 64] set; it is the zero limb when [n] is a multiple of 64, and
    one more than it is [limb_one_set_bit n]. *)
Theorem limb_lower_bits_down_bits n :
  (forall j, Z.testbit (limb_lower_bits_down n) j
             = (0 <=? j) && (j <? n mod LIMB_BITS)) /\
  (limb_lower_bits_down (64 * n) = 0) /\
  limb_lower_bits_down n + 1 = limb_one_set_bit n.
Proof.
  pose proof (offset_range n) as Hk. split; [| split].
  - intros j. rewrite limb_lower_bits_down_ones.
    apply Z.testbit_ones. lia.
  - rewrite limb_lower_bits_down_ones. unfold LIMB_BITS.
    rewrite Z.mul_comm, Z.mod_mul by lia. reflexivity.
  - rewrite limb_lower_bits_down_ones, limb_one_set_bit_pow2.
    rewrite Z.ones_equiv. lia.
Qed.

(** X2: [limb_one_set_bit n] is a 64-bit value with exactly one bit set,
    the bit at offset [n mod 64]; the index counts modulo 64 only. *)
Theorem limb_one_set_bit_bits n :
  is_u64 (limb_one_set_bit n) /\
  (forall j, Z.testbit (limb_one_set_bit n) j = (j =? n mod LIMB_BITS)) /\
  limb_one_set_bit (n + 64) = limb_one_set_bit n.
Proof.
  split; [| split].
  - pose proof (limb_one_set_bit_pos n). unfold is_u64. lia.
  - intros j. rewrite limb_one_set_bit_testbit. apply Z.eqb_sym.
  - rewrite !limb_one_set_bit_pow2. unfold LIMB_BITS.
    replace (n + 64) with (n + 1 * 64) by lia.
    rewrite Z.mod_add by lia. reflexivity.
Qed.

(** X3: scanning the pattern of one index gives its offset back: both
    first-set-bit helpers return [n mod 64] on [limb_one_set_bit n]. *)
Theorem first_in_limb_of_one_set_bit n :
  _bitset_first_in_limb (limb_one_set_bit n) = Some (n mod LIMB_BITS) /\
  _bitset_first_in_limb_nonzero (limb_one_set_bit n) = Some (n mod LIMB_BITS).
Proof.
  pose proof (limb_one_set_bit_pos n) as Hp.
  destruct (first_in_limb_nonzero (limb_one_set_bit n)
              ltac:(unfold is_u64; lia) ltac:(lia))
    as (b & E1 & E2 & _ & Hset & _).
  rewrite limb_one_set_bit_testbit in Hset. apply Z.eqb_eq in Hset.
  subst b. split; assumption.
Qed.

(** ** What insertion and removal do to the set *)

(** The bits of a buffer whose word [n / 64] received the bit of [n]. *)
Lemma add_bits (bits : list Z) n w :
  0 <= n -> bits !! Z.to_nat (n / LIMB_BITS) = Some w ->
  forall k,
    bit_set (<[Z.to_nat (n / LIMB_BITS) := Z.lor w (limb_one_set_bit n)]> bits) k
    = bit_set bits k || (k =? n).
Proof.
  intros Hn0 Hw k.
  assert (Hi : 0 <= n / LIMB_BITS) by (unfold LIMB_BITS; apply Z.div_pos; lia).
  rewrite (bit_set_insert _ _ w _ k Hi Hw).
  destruct (Z.leb_spec 0 k) as [Hk | Hk]; simpl.
  - rewrite (same_index k n) by lia.
    destruct (Z.eqb_spec (k / LIMB_BITS) (n / LIMB_BITS)) as [E | E]; simpl.
    + rewrite Z.lor_spec, limb_one_set_bit_testbit. f_equal.
      unfold bit_set. destruct (Z.ltb_spec k 0); [lia |].
      rewrite E, Hw. reflexivity.
    + rewrite orb_false_r. reflexivity.
  - destruct (Z.eqb_spec k n); [lia |]. rewrite orb_false_r. reflexivity.
Qed.

Lemma add_keeps_ok L (bits : list Z) n w :
  bitset_ok L bits -> bits !! Z.to_nat (n / LIMB_BITS) = Some w ->
  bitset_ok L (<[Z.to_nat (n / LIMB_BITS) := Z.lor w (limb_one_set_bit n)]> bits).
Proof.
  intros Hok Hw. apply bitset_ok_insert; [exact Hok |].
  apply is_u64_lor.
  - destruct Hok as [_ Hall _]. rewrite Forall_lookup in Hall.
    eapply Hall. exact Hw.
  - pose proof (limb_one_set_bit_pos n). unfold is_u64. lia.
Qed.

(** X4: after [bitset_add(bits, n)] on a valid index the set is the old
    one with [n] added: [n] is a member, and every other index is a member
    exactly when it was one before. *)
Theorem bitset_add_inserts n s :
  valid_index (limbs s) n ->
  exists s1,
    bitset_add n s = Done tt s1 /\
    forall k, bit_set (limbs s1) k = bit_set (limbs s) k || (k =? n).
Proof.
  intros Hn. pose proof Hn as Hn0. unfold valid_index in Hn0.
  destruct (valid_index_word _ _ Hn) as (Hi & w & Hw).
  eexists. split; [exact (bitset_add_done s n w Hi Hw) |].
  simpl. apply add_bits; [lia | exact Hw].
Qed.

Lemma bitset_add_inserts_witness :
  valid_index [5; 0] 70 /\
  exists s1, bitset_add 70 (mkMem [5; 0] []) = Done tt s1 /\
             bit_set (limbs s1) 70 = true /\ bit_set (limbs s1) 2 = true.
Proof.
  assert (Hn : valid_index (limbs (mkMem [5; 0] [])) 70).
  { unfold valid_index, LIMB_BITS. simpl. lia. }
  split; [exact Hn |].
  destruct (bitset_add_inserts 70 (mkMem [5; 0] []) Hn) as (s1 & E & Hbits).
  exists s1. split; [exact E |]. split.
  - rewrite (Hbits 70). reflexivity.
  - rewrite (Hbits 2). reflexivity.
Defined.

(** X5: the mutators keep a buffer well formed: after [bitset_add] or
    [bitset_discard] on a valid index it has the same number of limbs and
    every limb is still a 64-bit value. *)
Theorem mutators_keep_buffer_ok L n s :
  bitset_ok L (limbs s) -> 0 <= n < L * LIMB_BITS ->
  exists s1 s2,
    bitset_add n s = Done tt s1 /\ bitset_discard n s = Done tt s2 /\
    bitset_ok L (limbs s1) /\ bitset_ok L (limbs s2).
Proof.
  intros Hok Hn. pose proof (valid_index_ok L _ n Hok Hn) as Hv.
  destruct (valid_index_word _ _ Hv) as (Hi & w & Hw).
  assert (Hrange : is_u64 w).
  { destruct Hok as [_ Hall _]. rewrite Forall_lookup in Hall.
    eapply Hall. exact Hw. }
  eexists _, _.
  split; [exact (bitset_add_done s n w Hi Hw) |].
  split; [exact (bitset_discard_result n s Hv) |]. simpl. split.
  - apply add_keeps_ok; assumption.
  - apply bitset_ok_insert; [exact Hok |]. unfold is_u64. lia.
Qed.

Lemma mutators_keep_buffer_ok_witness :
  bitset_ok 2 [5; 7] /\ 0 <= 70 < 2 * LIMB_BITS /\
  exists s1 s2,
    bitset_add 70 (mkMem [5; 7] []) = Done tt s1 /\
    bitset_discard 70 (mkMem [5; 7] []) = Done tt s2 /\
    bitset_ok 2 (limbs s1) /\ bitset_ok 2 (limbs s2).
Proof.
  assert (Hok : bitset_ok 2 (limbs (mkMem [5; 7] []))).
  { constructor; [reflexivity | | reflexivity]. simpl.
    constructor; [unfold is_u64; lia |].
    constructor; [unfold is_u64; lia | constructor]. }
  assert (Hn : 0 <= 70 < 2 * LIMB_BITS) by (unfold LIMB_BITS; lia).
  split; [exact Hok |]. split; [exact Hn |].
  exact (mutators_keep_buffer_ok 2 70 (mkMem [5; 7] []) Hok Hn).
Defined.

(** X6: adding an index that is already a member writes back the word it
    read: no limb of the buffer changes. *)
Theorem bitset_add_present n s :
  valid_index (limbs s) n -> bit_set (limbs s) n = true ->
  exists s1, bitset_add n s = Done tt s1 /\ limbs s1 = limbs s.
Proof.
  intros Hn Hset. pose proof Hn as Hn0. unfold valid_index in Hn0.
  destruct (valid_index_word _ _ Hn) as (Hi & w & Hw).
  eexists. split; [exact (bitset_add_done s n w Hi Hw) |]. simpl.
  apply list_insert_id. rewrite Hw. f_equal.
  unfold bit_set in Hset. destruct (Z.ltb_spec n 0); [lia |].
  rewrite Hw in Hset.
  apply Z.bits_inj'. intros j Hj.
  rewrite Z.lor_spec, limb_one_set_bit_testbit.
  destruct (Z.eqb_spec (n mod LIMB_BITS) j) as [<- | _].
  - rewrite Hset. reflexivity.
  - rewrite orb_false_r. reflexivity.
Qed.

Lemma bitset_add_present_witness :
  valid_index [5; 0] 2 /\ bit_set [5; 0] 2 = true /\
  exists s1, bitset_add 2 (mkMem [5; 0] []) = Done tt s1 /\ limbs s1 = [5; 0].
Proof.
  assert (Hn : valid_index (limbs (mkMem [5; 0] [])) 2).
  { unfold valid_index, LIMB_BITS. simpl. lia. }
  assert (Hset : bit_set (limbs (mkMem [5; 0] [])) 2 = true) by reflexivity.
  split; [exact Hn |]. split; [exact Hset |].
  exact (bitset_add_present 2 (mkMem [5; 0] []) Hn Hset).
Defined.

(** X7: insertions commute: adding [m] then [n] leaves the same limbs as
    adding [n] then [m]. *)
Theorem bitset_add_commutes m n s :
  valid_index (limbs s) m -> valid_index (limbs s) n ->
  exists s1 s2 t1 t2,
    bitset_add m s = Done tt s1 /\ bitset_add n s1 = Done tt s2 /\
    bitset_add n s = Done tt t1 /\ bitset_add m t1 = Done tt t2 /\
    limbs s2 = limbs t2.
Proof.
  intros Hm Hn.
  destruct (valid_index_word _ _ Hm) as (Him & wm & Hwm).
  destruct (valid_index_word _ _ Hn) as (Hin & wn & Hwn).
  destruct (Z.eq_dec (m / LIMB_BITS) (n / LIMB_BITS)) as [E | E].
  - rewrite E in Hwm. assert (wm = wn) as -> by congruence.
    eexists _, _, _, _.
    split; [exact (bitset_add_done s m wn Him ltac:(rewrite E; exact Hwn)) |].
    split; [apply bitset_add_done; [exact Hin |]; simpl; rewrite E;
            eapply lookup_updated_word; exact Hwn |].
    split; [exact (bitset_add_done s n wn Hin Hwn) |].
    split; [apply bitset_add_done; [exact Him |]; simpl; rewrite E;
            eapply lookup_updated_word; exact Hwn |].
    simpl. rewrite E, !list_insert_insert_eq. f_equal.
    rewrite <- !Z.lor_assoc. f_equal. apply Z.lor_comm.
  - assert (Hne : Z.to_nat (m / LIMB_BITS) <> Z.to_nat (n / LIMB_BITS)) by lia.
    eexists _, _, _, _.
    split; [exact (bitset_add_done s m wm Him Hwm) |].
    split; [apply bitset_add_done; [exact Hin |]; simpl;
            rewrite list_lookup_insert_ne by exact Hne; exact Hwn |].
    split; [exact (bitset_add_done s n wn Hin Hwn) |].
    split; [apply bitset_add_done; [exact Him |]; simpl;
            rewrite list_lookup_insert_ne by congruence; exact Hwm |].
    simpl. apply list_insert_insert_ne. congruence.
Qed.

Lemma bitset_add_commutes_witness :
  valid_index [0; 0] 3 /\ valid_index [0; 0] 70 /\
  exists s1 s2 t1 t2,
    bitset_add 3 (mkMem [0; 0] []) = Done tt s1 /\
    bitset_add 70 s1 = Done tt s2 /\
    bitset_add 70 (mkMem [0; 0] []) = Done tt t1 /\
    bitset_add 3 t1 = Done tt t2 /\ limbs s2 = limbs t2.
Proof.
  assert (Hm : valid_index (limbs (mkMem [0; 0] [])) 3).
  { unfold valid_index, LIMB_BITS. simpl. lia. }
  assert (Hn : valid_index (limbs (mkMem [0; 0] [])) 70).
  { unfold valid_index, LIMB_BITS. simpl. lia. }
  split; [exact Hm |]. split; [exact Hn |].
  exact (bitset_add_commutes 3 70 (mkMem [0; 0] []) Hm Hn).
Defined.

(** X8: what [bitset_discard(bits, n)] does to the set on a valid index:
    afterwards no index of word [n / 64] is a member, [n] in particular,
    and an index of another word is a member exactly when it was one
    before; no index is ever added. *)
Theorem bitset_discard_removes n s :
  valid_index (limbs s) n ->
  exists s1,
    bitset_discard n s = Done tt s1 /\
    bit_set (limbs s1) n = false /\
    forall k, bit_set (limbs s1) k =
              bit_set (limbs s) k && negb (k / LIMB_BITS =? n / LIMB_BITS).
Proof.
  intros Hn. pose proof Hn as Hn0. unfold valid_index in Hn0.
  destruct (valid_index_word _ _ Hn) as (Hi & w & Hw).
  eexists. split; [exact (bitset_discard_result n s Hn) |]. simpl.
  assert (Hall : forall k,
            bit_set (<[Z.to_nat (n / LIMB_BITS) := 0]> (limbs s)) k =
            bit_set (limbs s) k && negb (k / LIMB_BITS =? n / LIMB_BITS)).
  { intros k. rewrite (bit_set_insert _ _ w _ k Hi Hw).
    destruct (Z.leb_spec 0 k) as [Hk | Hk]; simpl.
    - destruct (Z.eqb_spec (k / LIMB_BITS) (n / LIMB_BITS)); simpl.
      + rewrite Z.testbit_0_l, andb_false_r. reflexivity.
      + rewrite andb_true_r. reflexivity.
    - unfold bit_set. destruct (Z.ltb_spec k 0); [reflexivity | lia]. }
  split; [| exact Hall].
  rewrite Hall, Z.eqb_refl. apply andb_false_r.
Qed.

Lemma bitset_discard_removes_witness :
  valid_index [5; 7] 70 /\
  exists s1, bitset_discard 70 (mkMem [5; 7] []) = Done tt s1 /\
             bit_set (limbs s1) 70 = false /\ bit_set (limbs s1) 2 = true.
Proof.
  assert (Hn : valid_index (limbs (mkMem [5; 7] [])) 70).
  { unfold valid_index, LIMB_BITS. simpl. lia. }
  split; [exact Hn |].
  destruct (bitset_discard_removes 70 (mkMem [5; 7] []) Hn)
    as (s1 & E & H70 & Hbits).
  exists s1. split; [exact E |]. split; [exact H70 |].
  rewrite (Hbits 2). reflexivity.
Defined.

(** ** What [bitset_in] reports *)

(** X9: on a valid index the [int] that [bitset_in] returns is non-zero
    only for a member; for an offset [n mod 64] below 32 it is non-zero for
    every member, and for an offset of 32 or more it is always 0. *)
Theorem bitset_in_reports n s :
  valid_index (limbs s) n ->
  exists r s',
    bitset_in n s = Done r s' /\
    (r <> 0 -> bit_set (limbs s) n = true) /\
    (n mod LIMB_BITS < 32 -> bit_set (limbs s) n = true -> r <> 0) /\
    (32 <= n mod LIMB_BITS -> r = 0).
Proof.
  intros Hn. destruct (bitset_in_result n s Hn) as (r & s' & E & _ & Hr).
  exists r, s'. split; [exact E |].
  destruct (Z.eqb_spec r 0) as [Hz | Hnz];
    destruct (bit_set (limbs s) n);
    destruct (Z.ltb_spec (n mod LIMB_BITS) 32); simpl in Hr;
    try discriminate; repeat split; intros; congruence || lia.
Qed.

Lemma bitset_in_reports_witness :
  valid_index [5; 0] 2 /\
  exists r s', bitset_in 2 (mkMem [5; 0] []) = Done r s' /\ r <> 0.
Proof.
  assert (Hn : valid_index (limbs (mkMem [5; 0] [])) 2).
  { unfold valid_index, LIMB_BITS. simpl. lia. }
  split; [exact Hn |].
  destruct (bitset_in_reports 2 (mkMem [5; 0] []) Hn)
    as (r & s' & E & _ & Hlow & _).
  exists r, s'. split; [exact E |].
  apply Hlow; [vm_compute; reflexivity | reflexivity].
Defined.

(** X10: membership after a mutation: right after [bitset_add(bits, n)]
    [bitset_in(bits, n)] is non-zero when the offset [n mod 64] is below
    32, and right after [bitset_discard(bits, n)] it is 0. *)
Theorem bitset_in_after_mutation n s :
  valid_index (limbs s) n ->
  exists s1 r s1' s2 s2',
    bitset_add n s = Done tt s1 /\ bitset_in n s1 = Done r s1' /\
    (n mod LIMB_BITS < 32 -> r <> 0) /\
    bitset_discard n s = Done tt s2 /\ bitset_in n s2 = Done 0 s2'.
Proof.
  intros Hn. destruct (valid_index_word _ _ Hn) as (Hi & w & Hw).
  destruct (bitset_in_after_discard n s Hn) as (s2 & s2' & E2 & E2').
  pose proof (offset_range n) as Hk.
  eexists _, _, _, s2, s2'.
  split; [exact (bitset_add_done s n w Hi Hw) |].
  split; [apply bitset_in_done; [exact Hi |]; simpl;
          eapply lookup_updated_word; exact Hw |].
  split; [| split; assumption].
  intros Hlow. rewrite limb_one_set_bit_pow2, land_pow2 by lia.
  rewrite Z.lor_spec, Z.pow2_bits_true, orb_true_r by lia.
  apply Z.eqb_neq. rewrite s32_pow2 by lia. apply Z.leb_gt. exact Hlow.
Qed.

Lemma bitset_in_after_mutation_witness :
  valid_index [0; 0] 70 /\
  exists s1 r s1',
    bitset_add 70 (mkMem [0; 0] []) = Done tt s1 /\
    bitset_in 70 s1 = Done r s1' /\ r <> 0.
Proof.
  assert (Hn : valid_index (limbs (mkMem [0; 0] [])) 70).
  { unfold valid_index, LIMB_BITS. simpl. lia. }
  split; [exact Hn |].
  destruct (bitset_in_after_mutation 70 (mkMem [0; 0] []) Hn)
    as (s1 & r & s1' & _ & _ & E1 & E2 & Hr & _).
  exists s1, r, s1'. split; [exact E1 |]. split; [exact E2 |].
  apply Hr. vm_compute. reflexivity.
Defined.

(** ** More on the forward scan *)

Section ScanFacts.

Lemma bit_set_zeros len k : bit_set (replicate len 0) k = false.
Proof.
  unfold bit_set. destruct (k <? 0); [reflexivity |].
  destruct (replicate len 0 !! Z.to_nat (k / LIMB_BITS)) as [w |] eqn:E;
    [| reflexivity].
  apply lookup_replicate in E. destruct E as [-> _]. apply Z.testbit_0_l.
Qed.

Lemma zeros_ok L :
  0 <= L -> L * LIMB_BITS < 2 ^ 64 -> bitset_ok L (replicate (Z.to_nat L) 0).
Proof.
  intros HL Hcap. constructor.
  - rewrite length_replicate. lia.
  - apply Forall_replicate. unfold is_u64. lia.
  - exact Hcap.
Qed.

(** Every access of the whole-word loop is a read of a word between the
    one it starts at and the end of the buffer. *)
Lemma bitset_next_loop_reads lo L fuel :
  L < 2 ^ 64 ->
  forall i s,
    0 <= lo <= i -> i <= L ->
    match bitset_next_loop fuel L i s with
    | Done _ s' => exists t, trace s' = trace s ++ t /\ reads_between lo L t
    | _ => True
    end.
Proof.
  intros HL. induction fuel as [| fuel IH]; intros i s Hlo Hi; simpl; [exact I |].
  destruct (Z.ltb_spec i L) as [Hlt | Hge].
  - unfold bind at 1, load at 1.
    destruct (i <? 0); [exact I |].
    destruct (limbs s !! Z.to_nat i) as [w |] eqn:Hw; [| exact I].
    destruct (negb (w =? 0)).
    + unfold bind, load. simpl. destruct (i <? 0); [exact I |]. rewrite Hw.
      unfold lift. destruct (_bitset_first_in_limb_nonzero w); [| exact I].
      simpl. exists [Rd i; Rd i]. rewrite <- app_assoc. split; [reflexivity |].
      repeat constructor; lia.
    + rewrite u64_small by (unfold is_u64; lia).
      specialize (IH (i + 1) (mkMem (limbs s) (trace s ++ [Rd i]))
                     ltac:(lia) ltac:(lia)).
      destruct (bitset_next_loop fuel L (i + 1) _) as [r s' | |]; try exact I.
      destruct IH as (t & Ht & Hall). simpl in Ht.
      exists (Rd i :: t). split.
      * rewrite Ht, <- app_assoc. reflexivity.
      * constructor; [lia | exact Hall].
  - simpl. exists []. rewrite app_nil_r. split; [reflexivity | constructor].
Qed.

Lemma bitset_next_reads L n s :
  0 <= L -> L * LIMB_BITS < 2 ^ 64 -> is_u64 n ->
  match bitset_next L n s with
  | Done _ s' =>
      exists t, trace s' = trace s ++ t /\
                reads_between (n / LIMB_BITS) L t /\
                (L * LIMB_BITS <= n -> t = [])
  | _ => True
  end.
Proof.
  intros HL Hcap Hn. unfold is_u64 in Hn. unfold LIMB_BITS in Hcap.
  unfold bitset_next. unfold LIMB_BITS at 1.
  rewrite (u64_small (L * 64)) by (unfold is_u64; lia).
  destruct (Z.leb_spec (L * 64) n) as [Hout | Hin].
  { simpl. exists []. rewrite app_nil_r.
    split; [reflexivity |]. split; [constructor | reflexivity]. }
  rewrite shiftr_index.
  assert (Hi : 0 <= n / LIMB_BITS < L).
  { unfold LIMB_BITS. split; [apply Z.div_pos; lia |].
    apply Z.div_lt_upper_bound; lia. }
  unfold bind at 1, load at 1.
  destruct (n / LIMB_BITS <? 0); [exact I |].
  destruct (limbs s !! Z.to_nat (n / LIMB_BITS)) as [w |]; [| exact I].
  unfold bind, lift.
  destruct (_bitset_first_in_limb _) as [r |]; [| exact I].
  destruct (negb (r =? u64 (-1))).
  - simpl. exists [Rd (n / LIMB_BITS)]. split; [reflexivity |].
    split; [repeat constructor; lia | unfold LIMB_BITS; lia].
  - rewrite u64_small by (unfold is_u64; lia).
    pose proof (bitset_next_loop_reads (n / LIMB_BITS) L (S (Z.to_nat L))
                  ltac:(lia) (n / LIMB_BITS + 1)
                  (mkMem (limbs s) (trace s ++ [Rd (n / LIMB_BITS)]))
                  ltac:(lia) ltac:(lia)) as Hloop.
    destruct (bitset_next_loop _ L (n / LIMB_BITS + 1) _) as [r' s' | |];
      try exact I.
    destruct Hloop as (t & Ht & Hall). simpl in Ht.
    exists (Rd (n / LIMB_BITS) :: t). split.
    + rewrite Ht, <- app_assoc. reflexivity.
    + split; [constructor; [lia | exact Hall] | unfold LIMB_BITS; lia].
Qed.

End ScanFacts.

(** X11: insertion is seen by the scan: right after [bitset_add(bits, n)]
    on a valid index, [bitset_next(bits, L, n)] returns [n] itself,
    whatever the offset of [n] in its word. *)
Theorem bitset_next_after_add L n s :
  bitset_ok L (limbs s) -> 0 <= n < L * LIMB_BITS ->
  exists s1 s2, bitset_add n s = Done tt s1 /\ bitset_next L n s1 = Done n s2.
Proof.
  intros Hok Hn. pose proof (valid_index_ok L _ n Hok Hn) as Hv.
  destruct (valid_index_word _ _ Hv) as (Hi & w & Hw).
  pose proof (capacity_bounds L _ Hok) as [HL Hcap]. unfold LIMB_BITS in Hn.
  pose proof (add_keeps_ok L _ n w Hok Hw) as Hok1.
  set (s1 := mkMem (<[Z.to_nat (n / LIMB_BITS) :=
                       Z.lor w (limb_one_set_bit n)]> (limbs s))
                   (trace s ++ [Rd (n / LIMB_BITS); Wr (n / LIMB_BITS)])).
  destruct (bitset_next_spec L (limbs s1) Hok1 n s1 eq_refl
              ltac:(unfold is_u64; lia)) as (r & s2 & E & _ & Hr).
  exists s1, s2. split; [exact (bitset_add_done s n w Hi Hw) |].
  assert (r = n) as <-; [| exact E].
  apply (next_result_hit _ _ _ _ n Hr); [lia | | intros k Hk; lia].
  simpl. rewrite add_bits by (lia || exact Hw).
  rewrite Z.eqb_refl. apply orb_true_r.
Qed.

Lemma bitset_next_after_add_witness :
  bitset_ok 2 [0; 0] /\ 0 <= 100 < 2 * LIMB_BITS /\
  exists s1 s2, bitset_add 100 (mkMem [0; 0] []) = Done tt s1 /\
                bitset_next 2 100 s1 = Done 100 s2.
Proof.
  assert (Hok : bitset_ok 2 (limbs (mkMem [0; 0] []))).
  { constructor; [reflexivity | | reflexivity]. simpl.
    constructor; [unfold is_u64; lia |].
    constructor; [unfold is_u64; lia | constructor]. }
  assert (Hn : 0 <= 100 < 2 * LIMB_BITS) by (unfold LIMB_BITS; lia).
  split; [exact Hok |]. split; [exact Hn |].
  exact (bitset_next_after_add 2 100 (mkMem [0; 0] []) Hok Hn).
Defined.

(** X12: the scan is monotone in its start: for starts [n <= m] the result
    from [m] is never below the result from [n] (the sentinel counting as
    the largest value), and it is the same result whenever [m] does not
    pass the result from [n]; so scanning again from a hit returns the hit. *)
Theorem bitset_next_monotone L n m s :
  bitset_ok L (limbs s) -> is_u64 n -> is_u64 m -> n <= m ->
  exists r rm s1 s2,
    bitset_next L n s = Done r s1 /\ bitset_next L m s = Done rm s2 /\
    r <= rm /\ (m <= r -> rm = r).
Proof.
  intros Hok Hn Hm Hnm.
  pose proof (capacity_bounds L _ Hok) as [HL Hcap].
  destruct (bitset_next_spec L _ Hok n s eq_refl Hn) as (r & s1 & E1 & _ & Hr).
  destruct (bitset_next_spec L _ Hok m s eq_refl Hm) as (rm & s2 & E2 & _ & Hrm).
  exists r, rm, s1, s2. split; [exact E1 |]. split; [exact E2 |].
  unfold is_u64 in Hn, Hm. pose proof SENTINEL_eq as HS.
  destruct Hr as [[-> Hnone] | (Hr & Hset & Hlow)].
  - assert (rm = SENTINEL) as ->.
    { apply (next_result_none _ _ _ _ Hrm). intros k Hk. apply Hnone. lia. }
    split; [lia | reflexivity].
  - destruct Hrm as [[-> Hnone] | (Hrm & Hsetm & Hlowm)].
    + split; [lia |]. intros Hle. rewrite Hnone in Hset by lia. discriminate.
    + assert (Hle : r <= rm).
      { destruct (Z.le_gt_cases r rm) as [H | H]; [exact H |].
        rewrite Hlow in Hsetm by lia. discriminate. }
      split; [exact Hle |]. intros Hmr.
      destruct (Z.eq_dec rm r) as [-> | Hne]; [reflexivity |].
      rewrite Hlowm in Hset by lia. discriminate.
Qed.

Lemma bitset_next_monotone_witness :
  bitset_ok 2 (limbs scenario) /\ is_u64 4 /\ is_u64 70 /\ 4 <= 70 /\
  exists r rm s1 s2,
    bitset_next 2 4 scenario = Done r s1 /\
    bitset_next 2 70 scenario = Done rm s2 /\ r <= rm.
Proof.
  assert (Hok : bitset_ok 2 (limbs scenario)).
  { constructor; [reflexivity | | reflexivity].
    change (limbs scenario) with [8; 9223372036854775872].
    constructor; [unfold is_u64; lia |].
    constructor; [unfold is_u64; lia | constructor]. }
  assert (Hn : is_u64 4) by (unfold is_u64; lia).
  assert (Hm : is_u64 70) by (unfold is_u64; lia).
  assert (Hnm : 4 <= 70) by lia.
  split; [exact Hok |]. split; [exact Hn |]. split; [exact Hm |].
  split; [exact Hnm |].
  destruct (bitset_next_monotone 2 4 70 scenario Hok Hn Hm Hnm)
    as (r & rm & s1 & s2 & E1 & E2 & Hle & _).
  exists r, rm, s1, s2. auto.
Defined.

(** X13: the scan stays inside the buffer and never looks back: every
    access [bitset_next(bits, L, n)] makes is a read of a word [j] with
    [n / 64 <= j < L], and when [n] is at or past the capacity it makes no
    access at all. *)
Theorem bitset_next_stays_in_buffer L n s :
  bitset_ok L (limbs s) -> is_u64 n ->
  exists r s' t,
    bitset_next L n s = Done r s' /\ trace s' = trace s ++ t /\
    reads_between (n / LIMB_BITS) L t /\
    (L * LIMB_BITS <= n -> t = []).
Proof.
  intros Hok Hn. pose proof (capacity_bounds L _ Hok) as [HL Hcap].
  destruct (bitset_next_spec L _ Hok n s eq_refl Hn) as (r & s' & E & _).
  pose proof (bitset_next_reads L n s HL ltac:(unfold LIMB_BITS; lia) Hn) as Hrd.
  rewrite E in Hrd. destruct Hrd as (t & Ht & Hall & Hnil).
  exists r, s', t. auto.
Qed.

Lemma bitset_next_stays_in_buffer_witness :
  bitset_ok 2 (limbs scenario) /\ is_u64 71 /\
  exists r s' t,
    bitset_next 2 71 scenario = Done r s' /\ trace s' = trace scenario ++ t /\
    reads_between (71 / LIMB_BITS) 2 t.
Proof.
  assert (Hok : bitset_ok 2 (limbs scenario)).
  { constructor; [reflexivity | | reflexivity].
    change (limbs scenario) with [8; 9223372036854775872].
    constructor; [unfold is_u64; lia |].
    constructor; [unfold is_u64; lia | constructor]. }
  assert (Hn : is_u64 71) by (unfold is_u64; lia).
  split; [exact Hok |]. split; [exact Hn |].
  destruct (bitset_next_stays_in_buffer 2 71 scenario Hok Hn)
    as (r & s' & t & E & Ht & Hall & _).
  exists r, s', t. auto.
Defined.

(** X14: in a buffer of [L] zero limbs the scan finds nothing: from every
    start index [bitset_next] returns the sentinel. *)
Theorem bitset_next_empty L n s :
  0 <= L -> L * LIMB_BITS < 2 ^ 64 ->
  limbs s = replicate (Z.to_nat L) 0 -> is_u64 n ->
  exists s', bitset_next L n s = Done SENTINEL s'.
Proof.
  intros HL Hcap Hs Hn. pose proof (zeros_ok L HL Hcap) as Hok.
  destruct (bitset_next_spec L _ Hok n s Hs Hn) as (r & s' & E & _ & Hr).
  exists s'. rewrite E. f_equal.
  apply (next_result_none _ _ _ _ Hr). intros k _. apply bit_set_zeros.
Qed.

Lemma bitset_next_empty_witness :
  0 <= 3 /\ 3 * LIMB_BITS < 2 ^ 64 /\ is_u64 5 /\
  exists s', bitset_next 3 5 (mkMem [0; 0; 0] []) = Done SENTINEL s'.
Proof.
  assert (HL : 0 <= 3) by lia.
  assert (Hcap : 3 * LIMB_BITS < 2 ^ 64) by (unfold LIMB_BITS; lia).
  assert (Hn : is_u64 5) by (unfold is_u64; lia).
  split; [exact HL |]. split; [exact Hcap |]. split; [exact Hn |].
  exact (bitset_next_empty 3 5 (mkMem [0; 0; 0] []) HL Hcap eq_refl Hn).
Defined.

(** X15: a set with one member: after [bitset_add(bits, p)] on a buffer of
    [L] zero limbs, [bitset_next] returns [p] from every start at or below
    [p], word boundaries included, and the sentinel from every start
    above [p]. *)
Theorem bitset_next_singleton L p n s :
  L * LIMB_BITS < 2 ^ 64 -> limbs s = replicate (Z.to_nat L) 0 ->
  0 <= p < L * LIMB_BITS -> is_u64 n ->
  exists s1 s2,
    bitset_add p s = Done tt s1 /\
    bitset_next L n s1 = Done (if n <=? p then p else SENTINEL) s2.
Proof.
  intros Hcap Hs Hp Hn.
  assert (HL : 0 <= L) by (unfold LIMB_BITS in Hp; lia).
  pose proof (zeros_ok L HL Hcap) as Hok. rewrite <- Hs in Hok.
  pose proof (valid_index_ok L _ p Hok Hp) as Hv.
  destruct (valid_index_word _ _ Hv) as (Hi & w & Hw).
  pose proof (add_keeps_ok L _ p w Hok Hw) as Hok1.
  set (s1 := mkMem (<[Z.to_nat (p / LIMB_BITS) :=
                       Z.lor w (limb_one_set_bit p)]> (limbs s))
                   (trace s ++ [Rd (p / LIMB_BITS); Wr (p / LIMB_BITS)])).
  assert (Hbits : forall k, bit_set (limbs s1) k = (k =? p)).
  { intros k. simpl. rewrite add_bits by (lia || exact Hw).
    rewrite Hs, bit_set_zeros. reflexivity. }
  destruct (bitset_next_spec L (limbs s1) Hok1 n s1 eq_refl Hn)
    as (r & s2 & E & _ & Hr).
  exists s1, s2. split; [exact (bitset_add_done s p w Hi Hw) |].
  rewrite E. f_equal. unfold is_u64 in Hn. unfold LIMB_BITS in Hp.
  destruct (Z.leb_spec n p) as [Hle | Hgt].
  - apply (next_result_hit _ _ _ _ p Hr); [lia | |].
    + rewrite Hbits. apply Z.eqb_refl.
    + intros k Hk. rewrite Hbits. apply Z.eqb_neq. lia.
  - apply (next_result_none _ _ _ _ Hr). intros k Hk.
    rewrite Hbits. apply Z.eqb_neq. lia.
Qed.

Lemma bitset_next_singleton_witness :
  3 * LIMB_BITS < 2 ^ 64 /\ 0 <= 64 < 3 * LIMB_BITS /\ is_u64 0 /\
  exists s1 s2,
    bitset_add 64 (mkMem [0; 0; 0] []) = Done tt s1 /\
    bitset_next 3 0 s1 = Done 64 s2.
Proof.
  assert (Hcap : 3 * LIMB_BITS < 2 ^ 64) by (unfold LIMB_BITS; lia).
  assert (Hp : 0 <= 64 < 3 * LIMB_BITS) by (unfold LIMB_BITS; lia).
  assert (Hn : is_u64 0) by (unfold is_u64; lia).
  split; [exact Hcap |]. split; [exact Hp |]. split; [exact Hn |].
  exact (bitset_next_singleton 3 64 0 (mkMem [0; 0; 0] []) Hcap eq_refl Hp Hn).
Defined.

(** X16: iteration from any start: calling [bitset_next] from [n] and then
    from each [result + 1] stops with the sentinel after at most
    [64 * L - n + 1] calls, and the results are exactly the members at or
    after [n], each once, in strictly increasing order. *)
Theorem iterate_next_from L n s fuel :
  bitset_ok L (limbs s) -> is_u64 n ->
  (Z.to_nat (L * LIMB_BITS - n) < fuel)%nat ->
  exists l,
    iterate_next fuel L n s = Some l /\
    StronglySorted Z.lt l /\
    forall k, In k l <->
              n <= k < L * LIMB_BITS /\ bit_set (limbs s) k = true.
Proof.
  intros Hok Hn Hfuel. unfold LIMB_BITS in *.
  eexists. split; [apply (iterate_next_spec L _ Hok fuel n s eq_refl Hn Hfuel) |].
  split; [apply set_bits_increasing |].
  intros k. rewrite set_bits_members.
  replace (n + (L * 64 - n)) with (L * 64) by lia. tauto.
Qed.

Lemma iterate_next_from_witness :
  bitset_ok 2 (limbs scenario) /\ is_u64 4 /\
  (Z.to_nat (2 * LIMB_BITS - 4) < 200)%nat /\
  exists l, iterate_next 200 2 4 scenario = Some l /\ StronglySorted Z.lt l.
Proof.
  assert (Hok : bitset_ok 2 (limbs scenario)).
  { constructor; [reflexivity | | reflexivity].
    change (limbs scenario) with [8; 9223372036854775872].
    constructor; [unfold is_u64; lia |].
    constructor; [unfold is_u64; lia | constructor]. }
  assert (Hn : is_u64 4) by (unfold is_u64; lia).
  assert (Hfuel : (Z.to_nat (2 * LIMB_BITS - 4) < 200)%nat)
    by (unfold LIMB_BITS; lia).
  split; [exact Hok |]. split; [exact Hn |]. split; [exact Hfuel |].
  destruct (iterate_next_from 2 4 scenario 200 Hok Hn Hfuel) as (l & E & Hs & _).
  exists l. auto.
Defined.
